(** * The itinerary route-optimisation engine of [lib/route-optimizer.ts]

    A shallow embedding of the local optimisation engine (distance estimate,
    travel-factor synthesis, desirability score, Monte Carlo route search,
    time-budget pruning, alternate plan, metrics) and the properties its
    specification states about it.

    Modelling conventions.
    - A JavaScript [number] is an exact rational ([Qc], canonical fractions
      with Leibniz equality): rounding, [NaN] and the infinities of IEEE
      doubles are outside the model.  [Number.NEGATIVE_INFINITY], the only
      infinity the engine names, is the [None] of an [option Qc].
    - The functions the engine takes from its host ([Math.sin], [Math.cos],
      [Math.sqrt], [Math.atan2], [Math.PI], [String.prototype.localeCompare])
      are the fields of the class [Host]; everything is proved for every host.
    - [Math.random] is the one piece of hidden state.  It is made explicit as
      a [RandomSource]: the sequence of values the generator is going to
      return and the number of values already drawn.  Code that calls
      [Math.random] lives in the state monad [Rand].
    - An object literal used as a table is a finite map over its own keys. *)

From Stdlib Require Import QArith Qcanon Qround Lqa.
From stdpp Require Import base numbers list sorting strings gmap pretty.

Local Open Scope Qc_scope.

(** ** Numbers *)

(** A decimal literal of the source, e.g. [$0.4]. *)
Notation "$ x" := (Q2Qc x%Q) (at level 1, x constr at level 0, format "$ x").

Definition Qcltb (x y : Qc) : bool :=
  match x ?= y with Lt => true | _ => false end.

Definition Qcleb (x y : Qc) : bool :=
  match x ?= y with Gt => false | _ => true end.

Definition Math_min (x y : Qc) : Qc := if Qcltb y x then y else x.
Definition Math_max (x y : Qc) : Qc := if Qcltb x y then y else x.
Definition Math_floor (x : Qc) : Qc := Q2Qc (inject_Z (Qfloor x)).

(** ** The host environment *)

Class Host := {
  Math_sin : Qc → Qc;
  Math_cos : Qc → Qc;
  Math_sqrt : Qc → Qc;
  Math_atan2 : Qc → Qc → Qc;
  Math_PI : Qc;
  (** [a.localeCompare(b)]: negative, zero or positive. *)
  localeCompare : string → string → Qc
}.

(** ** The random source and the state monad over it *)

Record RandomSource := { draws : nat → Qc; next : nat }.

Definition Rand (A : Type) : Type := RandomSource → A * RandomSource.

Global Instance Rand_ret : MRet Rand := λ A a g, (a, g).
Global Instance Rand_bind : MBind Rand := λ A B f c g,
  let (a, g') := c g in f a g'.

(** [Math.random()] *)
Definition Math_random : Rand Qc := λ g,
  (draws g (next g), {| draws := draws g; next := S (next g) |}).

(** [for (const x of l) { s = body(s, x) }] *)
Fixpoint forOf {A S : Type} (body : S → A → Rand S) (l : list A) (s : S) : Rand S :=
  match l with
  | [] => mret s
  | x :: l' => s' ← body s x; forOf body l' s'
  end.

(** ** [Array.prototype.sort]

    The comparator may call [Math.random], so it runs in [Rand].  The sort is
    a stable insertion sort: an element moves in front of the earlier one only
    when the comparator, called as [comparefn(earlier, later)], is positive,
    and it stays behind when it is negative or zero.  For a consistent
    comparator every stable sort returns this list. *)
Fixpoint Array_insert {A : Type} (comparefn : A → A → Rand Qc) (x : A) (l : list A)
  : Rand (list A) :=
  match l with
  | [] => mret [x]
  | y :: l' =>
      c ← comparefn x y;
      if Qcltb 0 c then r ← Array_insert comparefn x l'; mret (y :: r)
      else mret (x :: y :: l')
  end.

Fixpoint Array_sort {A : Type} (comparefn : A → A → Rand Qc) (l : list A)
  : Rand (list A) :=
  match l with
  | [] => mret []
  | x :: l' => s ← Array_sort comparefn l'; Array_insert comparefn x s
  end.

(** ** Data model *)

Record ScheduleItem := {
  id : string;
  name : string;
  type : string;
  priority : Qc;
  dwellTime : Qc;
  targetArrival : option string;
  notes : option string
}.

Global Instance ScheduleItem_eq_dec : EqDecision ScheduleItem.
Proof. solve_decision. Defined.

Record Metrics := {
  totalDistance : Qc;
  totalTime : Qc;
  timeSaved : Qc;
  costSaved : Qc;
  droppedPOIs : list ScheduleItem
}.

Record OptimizationResult := {
  originalRoute : list ScheduleItem;
  optimizedRoute : list ScheduleItem;
  userPlan : list ScheduleItem;
  alternativePlan : option (list ScheduleItem);
  metrics : Metrics
}.

Record RouteFactors := {
  distance : Qc;
  walkingDistance : Qc;
  trafficLights : Qc;
  expediteRatio : Qc;
  slowRatio : Qc;
  congestionRatio : Qc;
  unknownRatio : Qc;
  duration : Qc;
  dailySales : Qc;
  rating : Qc;
  cost : Qc
}.

Record Coordinate := { lat : Qc; lng : Qc }.

(** ** Geo Distance Estimator *)

Definition mockCoordinates : gmap string Coordinate :=
  list_to_map [
    ("Home", {| lat := $12.9716; lng := $77.5946 |});
    ("Office", {| lat := $12.9352; lng := $77.6245 |});
    ("College", {| lat := $12.9279; lng := $77.6271 |});
    ("City Mall", {| lat := $12.9698; lng := $77.6469 |});
    ("Local Temple", {| lat := $12.9634; lng := $77.5855 |});
    ("Hospital", {| lat := $12.9591; lng := $77.6402 |});
    ("Restaurant", {| lat := $12.9667; lng := $77.6102 |});
    ("Bank", {| lat := $12.9548; lng := $77.6321 |});
    ("Gym", {| lat := $12.9423; lng := $77.6156 |});
    ("Park", {| lat := $12.9512; lng := $77.5982 |})
  ].

(** [mockCoordinates[point] || { lat: 12.9716, lng: 77.5946 }] *)
Definition coordinateOf (point : string) : Coordinate :=
  default {| lat := $12.9716; lng := $77.5946 |} (mockCoordinates !! point).

Section Engine.
Context `{Host}.

Definition calculateDistance (point1 point2 : string) : Qc :=
  let coord1 := coordinateOf point1 in
  let coord2 := coordinateOf point2 in
  let R := $6371 in
  let dLat := ((lat coord2 - lat coord1) * Math_PI) / $180 in
  let dLng := ((lng coord2 - lng coord1) * Math_PI) / $180 in
  let a :=
    Math_sin (dLat / 2) * Math_sin (dLat / 2) +
    Math_cos ((lat coord1 * Math_PI) / $180) *
      Math_cos ((lat coord2 * Math_PI) / $180) *
      Math_sin (dLng / 2) *
      Math_sin (dLng / 2) in
  let c := 2 * Math_atan2 (Math_sqrt a) (Math_sqrt (1 - a)) in
  R * c.

(** ** Travel Factor Synthesizer *)

Definition generateRouteFactors (from to : string) : Rand RouteFactors :=
  let distance := calculateDistance from to in
  r1 ← Math_random;
  let baseTime := distance * $3 + r1 * $10 in
  r2 ← Math_random;
  r3 ← Math_random;
  r4 ← Math_random;
  r5 ← Math_random;
  r6 ← Math_random;
  r7 ← Math_random;
  r8 ← Math_random;
  r9 ← Math_random;
  r10 ← Math_random;
  mret {|
    distance := distance;
    walkingDistance := distance * $0.1 + r2 * $0.5;
    trafficLights := Math_floor (distance * 2 + r3 * $3);
    expediteRatio := $0.4 + r4 * $0.4;
    slowRatio := $0.2 + r5 * $0.3;
    congestionRatio := $0.1 + r6 * $0.2;
    unknownRatio := $0.1 + r7 * $0.1;
    duration := baseTime;
    dailySales := Math_floor (r8 * $1000) + $100;
    rating := $3.5 + r9 * $1.5;
    cost := distance * $15 + r10 * $50
  |}.

(** ** Desirability Scorer *)

Definition calculateDSRScore (factors : RouteFactors) (priority : Qc) : Qc :=
  let spatialScore :=
    1 -
    Math_min (distance factors / $10) 1 * $0.4 -
    Math_min (walkingDistance factors / 2) 1 * $0.3 -
    Math_min (trafficLights factors / $10) 1 * $0.3 in
  let trafficScore :=
    expediteRatio factors * $0.6 + (1 - congestionRatio factors) * $0.4 in
  let serviceScore :=
    Math_min (rating factors / $5) 1 * $0.7 +
    Math_min (dailySales factors / $1000) 1 * $0.3 in
  let combinedScore :=
    spatialScore * $0.3 + trafficScore * $0.3 + serviceScore * $0.4 in
  let priorityWeight := priority / $5 in
  combinedScore * $0.7 + priorityWeight * $0.3.

(** ** Stochastic Route Search

    The Monte Carlo loop of [optimizeRouteRL] (lines 120-162 of the source),
    block by block. *)

(** The comparator [() => Math.random() - 0.5]. *)
Definition randomOrder (a b : ScheduleItem) : Rand Qc :=
  r ← Math_random; mret (r - $0.5).

(** A Route Candidate: an ordering with its aggregate score, time and cost. *)
Record Candidate := {
  route : list ScheduleItem;
  routeScore : Qc;
  routeTime : Qc;
  routeCost : Qc
}.

Record WalkState := {
  walkScore : Qc;
  walkTime : Qc;
  walkCost : Qc;
  walkLocation : string
}.

(** The body of [for (const item of testRoute)]. *)
Definition scoreLeg (st : WalkState) (item : ScheduleItem) : Rand WalkState :=
  factors ← generateRouteFactors (walkLocation st) (name item);
  let dsrScore := calculateDSRScore factors (priority item) in
  mret {|
    walkScore := walkScore st + dsrScore;
    walkTime := walkTime st + (duration factors + dwellTime item);
    walkCost := walkCost st + cost factors;
    walkLocation := name item
  |}.

(** One Monte Carlo trial, up to and including the final leg. *)
Definition sampleRoute (startLocation endLocation : string)
    (currentRoute : list ScheduleItem) : Rand Candidate :=
  testRoute ← Array_sort randomOrder currentRoute;
  st ← forOf scoreLeg testRoute
        {| walkScore := 0; walkTime := 0; walkCost := 0;
           walkLocation := startLocation |};
  finalFactors ← generateRouteFactors (walkLocation st) endLocation;
  mret {|
    route := testRoute;
    routeScore := walkScore st;
    routeTime := walkTime st + duration finalFactors;
    routeCost := walkCost st + cost finalFactors
  |}.

(** The test [if (maxTime)] on an optional number: present and not zero. *)
Definition given (maxTime : option Qc) : option Qc :=
  match maxTime with
  | Some m => match m ?= 0 with Eq => None | _ => Some m end
  | None => None
  end.

(** [if (maxTime && totalTime > maxTime) routeScore -= (totalTime - maxTime) * 0.1] *)
Definition penalised (maxTime : option Qc) (c : Candidate) : Qc :=
  match given maxTime with
  | Some m =>
      if Qcltb m (routeTime c) then routeScore c - (routeTime c - m) * $0.1
      else routeScore c
  | None => routeScore c
  end.

(** [routeScore > bestScore], where [bestScore] starts at minus infinity. *)
Definition better (routeScore : Qc) (bestScore : option Qc) : bool :=
  match bestScore with
  | None => true
  | Some b => Qcltb b routeScore
  end.

Definition iterations : nat := 100.

Record Best := { bestScore : option Qc; bestRoute : list ScheduleItem }.

(** [if (routeScore > bestScore) { bestScore = routeScore; bestRoute = [...testRoute] }],
    after the penalty. *)
Definition keepBetter (maxTime : option Qc) (best : Best) (c : Candidate) : Best :=
  let score := penalised maxTime c in
  if better score (bestScore best)
  then {| bestScore := Some score; bestRoute := route c |}
  else best.

(** [for (let i = 0; i < iterations; i++)], with [n] trials still to run. *)
Fixpoint searchLoop (n : nat) (startLocation endLocation : string)
    (currentRoute : list ScheduleItem) (maxTime : option Qc) (best : Best)
  : Rand Best :=
  match n with
  | O => mret best
  | S n' =>
      c ← sampleRoute startLocation endLocation currentRoute;
      searchLoop n' startLocation endLocation currentRoute maxTime
        (keepBetter maxTime best c)
  end.

Definition stochasticSearch (startLocation endLocation : string)
    (scheduleItems : list ScheduleItem) (maxTime : option Qc) : Rand Best :=
  searchLoop iterations startLocation endLocation scheduleItems maxTime
    {| bestScore := None; bestRoute := scheduleItems |}.

(** ** Time-Budget Pruner

    The pruning block of [optimizeRouteRL] (lines 164-191 of the source). *)

Definition byPriority (a b : ScheduleItem) : Rand Qc :=
  mret (priority b - priority a).

Record PruneState := {
  currentTime : Qc;
  currentLocation : string;
  validRoute : list ScheduleItem;
  dropped : list ScheduleItem
}.

(** The body of [for (const item of sortedByPriority)]. *)
Definition pruneStep (maxTime : Qc) (st : PruneState) (item : ScheduleItem)
  : Rand PruneState :=
  factors ← generateRouteFactors (currentLocation st) (name item);
  let itemTime := duration factors + dwellTime item in
  if Qcleb (currentTime st + itemTime) (maxTime * $0.9) then
    mret {|
      currentTime := currentTime st + itemTime;
      currentLocation := name item;
      validRoute := validRoute st ++ [item];
      dropped := dropped st
    |}
  else
    mret {|
      currentTime := currentTime st;
      currentLocation := currentLocation st;
      validRoute := validRoute st;
      dropped := dropped st ++ [item]
    |}.

(** The block guarded by [if (maxTime)]. *)
Definition prune (startLocation : string) (optimizedRoute : list ScheduleItem)
    (maxTime : Qc) : Rand PruneState :=
  sortedByPriority ← Array_sort byPriority optimizedRoute;
  forOf (pruneStep maxTime) sortedByPriority
    {| currentTime := 0; currentLocation := startLocation;
       validRoute := []; dropped := [] |}.

(** [let optimizedRoute = [...bestRoute]; const droppedPOIs = [];
    if (maxTime) { ...; optimizedRoute = validRoute }]: the optimized route
    and the dropped list after the guarded block. *)
Definition pruneIfGiven (startLocation : string) (bestRoute : list ScheduleItem)
    (maxTime : option Qc) : Rand (list ScheduleItem * list ScheduleItem) :=
  match given maxTime with
  | Some m =>
      st ← prune startLocation bestRoute m;
      mret (validRoute st, dropped st)
  | None => mret (bestRoute, [])
  end.

(** ** Alternate Plan Generator

    The comparator of the alternative route (lines 194-200 of the source). *)

Definition byTypeThenPriority (a b : ScheduleItem) : Rand Qc :=
  if String.eqb (type a) (type b) then mret (priority b - priority a)
  else mret (localeCompare (type a) (type b)).

(** ** Metrics Aggregator *)

Definition calculateTotalDistance (startLocation endLocation : string)
    (route : list ScheduleItem) : Qc :=
  let '(totalDistance, currentLocation) :=
    fold_left
      (λ '(totalDistance, currentLocation) item,
         (totalDistance + calculateDistance currentLocation (name item), name item))
      route (0, startLocation) in
  totalDistance + calculateDistance currentLocation endLocation.

Definition timeLeg (st : Qc * string) (item : ScheduleItem) : Rand (Qc * string) :=
  factors ← generateRouteFactors (st.2) (name item);
  mret (st.1 + (duration factors + dwellTime item), name item).

Definition calculateTotalTime (startLocation endLocation : string)
    (route : list ScheduleItem) : Rand Qc :=
  st ← forOf timeLeg route (0, startLocation);
  finalFactors ← generateRouteFactors (st.2) endLocation;
  mret (st.1 + duration finalFactors).

(** ** The local engine *)

Definition optimizeRouteRL (startLocation endLocation : string)
    (scheduleItems : list ScheduleItem) (maxTime : option Qc)
  : Rand OptimizationResult :=
  let userPlan := scheduleItems in
  best ← stochasticSearch startLocation endLocation scheduleItems maxTime;
  pruned ← pruneIfGiven startLocation (bestRoute best) maxTime;
  let optimizedRoute := pruned.1 in
  let droppedPOIs := pruned.2 in
  alternativeRoute ← Array_sort byTypeThenPriority scheduleItems;
  let originalDistance := calculateTotalDistance startLocation endLocation userPlan in
  let optimizedDistance := calculateTotalDistance startLocation endLocation optimizedRoute in
  originalTime ← calculateTotalTime startLocation endLocation userPlan;
  optimizedTime ← calculateTotalTime startLocation endLocation optimizedRoute;
  mret {|
    originalRoute := userPlan;
    optimizedRoute := optimizedRoute;
    userPlan := userPlan;
    alternativePlan :=
      if Nat.eqb (length alternativeRoute) (length optimizedRoute) then None
      else Some alternativeRoute;
    metrics := {|
      totalDistance := optimizedDistance;
      totalTime := optimizedTime;
      timeSaved := Math_max 0 (originalTime - optimizedTime);
      costSaved := Math_max 0 ((originalDistance - optimizedDistance) * $15);
      droppedPOIs := droppedPOIs
    |}
  |}.

(** ** The specification's reading of the pruner and of the search *)

(** The pruner's walk as the specification words it: from [location], with
    [elapsed] minutes used, each destination in turn is admitted, with the
    time of its leg, when the elapsed time after its leg and dwell stays
    within [limit], and is put on the dropped list otherwise.  A dropped
    destination moves neither the clock nor the location. *)
Inductive Walk (limit : Qc) :
    Qc → string → RandomSource → list ScheduleItem →
    list (ScheduleItem * Qc) → list ScheduleItem → RandomSource → Prop :=
  | Walk_done elapsed location g :
      Walk limit elapsed location g [] [] [] g
  | Walk_admit elapsed location g x rest t admitted dropped g' :
      t = duration (generateRouteFactors location (name x) g).1 + dwellTime x →
      elapsed + t ≤ limit →
      Walk limit (elapsed + t) (name x)
        (generateRouteFactors location (name x) g).2 rest admitted dropped g' →
      Walk limit elapsed location g (x :: rest) ((x, t) :: admitted) dropped g'
  | Walk_drop elapsed location g x rest t admitted dropped g' :
      t = duration (generateRouteFactors location (name x) g).1 + dwellTime x →
      limit < elapsed + t →
      Walk limit elapsed location
        (generateRouteFactors location (name x) g).2 rest admitted dropped g' →
      Walk limit elapsed location g (x :: rest) admitted (x :: dropped) g'.

(** The trials of the search in the order they are run, each from the state
    of the random source the previous one left. *)
Fixpoint trials (n : nat) (startLocation endLocation : string)
    (currentRoute : list ScheduleItem) : Rand (list Candidate) :=
  match n with
  | O => mret []
  | S n' =>
      c ← sampleRoute startLocation endLocation currentRoute;
      cs ← trials n' startLocation endLocation currentRoute;
      mret (c :: cs)
  end.

End Engine.

(** [best] is the first of the candidates [cs] with the highest penalised
    score: candidate number [i] has that score and that route, no candidate
    scores higher, and every earlier one scores strictly lower. *)
Definition FirstBest (maxTime : option Qc) (cs : list Candidate) (best : Best) : Prop :=
  ∃ (i : nat) (c : Candidate),
    cs !! i = Some c ∧
    bestScore best = Some (penalised maxTime c) ∧
    bestRoute best = route c ∧
    (∀ j c', cs !! j = Some c' → penalised maxTime c' ≤ penalised maxTime c) ∧
    (∀ j c', (j < i)%nat → cs !! j = Some c' →
       penalised maxTime c' < penalised maxTime c).

(** Two random sources agree when they are going to return the same values
    from now on, whatever they returned before. *)
Definition agree (g1 g2 : RandomSource) : Prop :=
  ∀ k : nat, draws g1 (next g1 + k) = draws g2 (next g2 + k).

(** The source [g] after [k] more draws. *)
Definition advance (k : nat) (g : RandomSource) : RandomSource :=
  {| draws := draws g; next := k + next g |}.

(** [Math.random] returns values in the interval from 0 (included) to 1. *)
Definition validSource (g : RandomSource) : Prop :=
  ∀ n : nat, 0 ≤ draws g n ∧ draws g n < 1.

(** A computation whose result and remaining randomness are determined by
    the values the source is going to return. *)
Definition Respects {A : Type} (c : Rand A) : Prop :=
  ∀ g1 g2, agree g1 g2 → (c g1).1 = (c g2).1 ∧ agree (c g1).2 (c g2).2.

(** A computation that only draws from the source: the sequence stays, the
    position does not go back. *)
Definition Draws {A : Type} (c : Rand A) : Prop :=
  ∀ g, draws (c g).2 = draws g ∧ (next g ≤ next (c g).2)%nat.

(** The sum of the leg-plus-dwell times of the admitted destinations. *)
Definition sumTimes (admitted : list (ScheduleItem * Qc)) : Qc :=
  foldr (λ leg total, leg.2 + total) 0 admitted.

(** Priorities never increase along the list. *)
Definition priorityDescending (l : list ScheduleItem) : Prop :=
  StronglySorted (λ a b, priority b ≤ priority a) l.

(** Destinations of equal priority come in [sorted] in the order they have
    in [original]. *)
Definition tiesKeepOrder (original sorted : list ScheduleItem) : Prop :=
  ∀ p : Qc,
    filter (λ x, priority x = p) sorted = filter (λ x, priority x = p) original.

(** * The rest of the module and its collaborators *)

(** ** POI Recommendation Ranker ([generatePOIRecommendations]) *)

Module Catalog.
Record entry := { name : string; type : string; baseRating : Qc }.
End Catalog.

Module POI.
Record t := {
  id : string;
  name : string;
  type : string;
  rating : Qc;
  distance : Qc;
  estimatedTime : Qc;
  priceRange : string;
  isOnRoute : bool;
  description : string;
  dsrScore : Qc
}.
End POI.

Definition poiDatabase : list Catalog.entry := [
  {| Catalog.name := "Spice Garden Restaurant"; Catalog.type := "Restaurant";
     Catalog.baseRating := $4.5 |};
  {| Catalog.name := "Sri Lakshmi Temple"; Catalog.type := "Temple";
     Catalog.baseRating := $4.7 |};
  {| Catalog.name := "Quick Mart Pharmacy"; Catalog.type := "Pharmacy";
     Catalog.baseRating := $4.2 |};
  {| Catalog.name := "Green Valley Park"; Catalog.type := "Park";
     Catalog.baseRating := $4.4 |};
  {| Catalog.name := "City Center Mall"; Catalog.type := "Shopping";
     Catalog.baseRating := $4.3 |};
  {| Catalog.name := "Express Fuel Station"; Catalog.type := "Gas Station";
     Catalog.baseRating := $4.1 |};
  {| Catalog.name := "Fitness First Gym"; Catalog.type := "Gym";
     Catalog.baseRating := $4.6 |};
  {| Catalog.name := "Apollo Hospital"; Catalog.type := "Hospital";
     Catalog.baseRating := $4.8 |};
  {| Catalog.name := "HDFC Bank"; Catalog.type := "Bank";
     Catalog.baseRating := $4.0 |};
  {| Catalog.name := "Coffee Day Cafe"; Catalog.type := "Restaurant";
     Catalog.baseRating := $4.3 |}
].

(** [array.map((x, index) => f(x, index))] with a callback that may draw;
    [index] is the position of the head of [l]. *)
Fixpoint Array_map {A B : Type} (f : A → nat → Rand B) (l : list A) (index : nat)
  : Rand (list B) :=
  match l with
  | [] => mret []
  | x :: l' =>
      y ← f x index;
      ys ← Array_map f l' (S index);
      mret (y :: ys)
  end.

(** The comparator [(a, b) => b.dsrScore - a.dsrScore]. *)
Definition byScore (a b : POI.t) : Rand Qc :=
  mret (POI.dsrScore b - POI.dsrScore a).

(** ** The API client ([lib/api-client.ts]) *)

(** How an awaited call ends: the promise resolves with a value, or the call
    throws or the promise rejects. *)
Inductive Outcome (A : Type) : Type :=
  | Resolved (a : A)
  | Rejected.
Arguments Resolved {A} a.
Arguments Rejected {A}.

(** The methods the class [APIClient] declares. *)
Definition APIClient_methods : list string := [
  "request"; "searchPOIs"; "generateItinerary"; "optimizeItinerary";
  "reoptimizeItinerary"; "healthCheck"; "signup"; "login"; "getUser";
  "optimizeRouteLocal"
].

(** [apiClient[name]]: the method when the class declares one of that name
    ([impl] is what it does), [undefined] otherwise. *)
Definition apiClient_member {M : Type} (name : string) (impl : M) : option M :=
  if bool_decide (name ∈ APIClient_methods) then Some impl else None.

(** [await member(argument)]: calling [undefined] throws a TypeError. *)
Definition invoke {A B : Type} (member : option (A → Outcome B)) (argument : A)
  : Outcome B :=
  match member with
  | Some method => method argument
  | None => Rejected
  end.

Module UserPreferences.
Record t := { prioritizeTime : bool; prioritizeCost : bool; avoidTraffic : bool }.
End UserPreferences.

Module RouteOptimizationRequest.
Record t := {
  startLocation : string;
  endLocation : string;
  scheduleItems : list ScheduleItem;
  maxTime : option Qc;
  userPreferences : UserPreferences.t
}.
End RouteOptimizationRequest.

Module POIRecommendationsRequest.
Record t := {
  currentRoute : list ScheduleItem;
  startLocation : string;
  endLocation : string;
  filters : list string;
  radius : Qc
}.
End POIRecommendationsRequest.

Module POIRecommendationsResponse.
Record t := { recommendations : list POI.t }.
End POIRecommendationsResponse.

(** The result of [optimizeRouteLocal]. *)
Module LocalResult.
Record metrics := {
  totalDistance : Qc;
  totalTime : Qc;
  timeSaved : Qc;
  costSaved : Qc
}.
Record t := {
  originalRoute : list ScheduleItem;
  optimizedRoute : list ScheduleItem;
  metrics_ : metrics
}.
End LocalResult.

(** [optimizeRouteLocal]: sort by priority, constant metrics. *)
Definition optimizeRouteLocal (startLocation endLocation : string)
    (scheduleItems : list ScheduleItem) : Rand LocalResult.t :=
  optimizedRoute ← Array_sort byPriority scheduleItems;
  mret {|
    LocalResult.originalRoute := scheduleItems;
    LocalResult.optimizedRoute := optimizedRoute;
    LocalResult.metrics_ := {|
      LocalResult.totalDistance := $15000;
      LocalResult.totalTime := $3600;
      LocalResult.timeSaved := $600;
      LocalResult.costSaved := $150
    |}
  |}.

(** The request [generateItinerary] sends to the backend. *)
Module BackendPoi.
Record t := {
  name : string;
  priority : Qc;
  dwell_mins : Qc;
  target_arrival : option string
}.
End BackendPoi.

Module BackendRequest.
Record t := {
  pois : list BackendPoi.t;
  mode : string;
  round_trip : bool;
  start_time : string;
  end_time : string;
  debug : bool
}.
End BackendRequest.

(** [s || fallback] on an optional string: the empty string is falsy. *)
Definition orString (s : option string) (fallback : string) : string :=
  match s with
  | Some s => if String.eqb s "" then fallback else s
  | None => fallback
  end.

(** [s || undefined] on an optional string. *)
Definition orUndefined (s : option string) : option string :=
  match s with
  | Some s => if String.eqb s "" then None else Some s
  | None => None
  end.

(** The body of [generateItinerary] up to the request it posts. *)
Definition itineraryRequest (startLocation endLocation : string)
    (scheduleItems : list ScheduleItem)
    (mode startTime endTime : option string) (debug : option bool)
  : BackendRequest.t :=
  let startPoi :=
    if String.eqb startLocation "" then []
    else [{| BackendPoi.name := startLocation; BackendPoi.priority := $5;
             BackendPoi.dwell_mins := 0; BackendPoi.target_arrival := None |}] in
  let destinationPois :=
    map (λ item,
           {| BackendPoi.name := name item;
              BackendPoi.priority := priority item;
              BackendPoi.dwell_mins := dwellTime item;
              BackendPoi.target_arrival := orUndefined (targetArrival item) |})
        scheduleItems in
  let isRoundTrip :=
    String.eqb endLocation "" || String.eqb endLocation startLocation in
  let endPoi :=
    if negb isRoundTrip && negb (String.eqb endLocation "") then
      [{| BackendPoi.name := endLocation; BackendPoi.priority := $5;
          BackendPoi.dwell_mins := 0; BackendPoi.target_arrival := None |}]
    else [] in
  {| BackendRequest.pois := startPoi ++ destinationPois ++ endPoi;
     BackendRequest.mode := orString mode "driving";
     BackendRequest.round_trip := isRoundTrip;
     BackendRequest.start_time := orString startTime "09:00";
     BackendRequest.end_time := orString endTime "22:00";
     BackendRequest.debug := default false debug |}.

(** Scores never increase along the list. *)
Definition scoreDescending (l : list POI.t) : Prop :=
  StronglySorted (λ a b, POI.dsrScore b ≤ POI.dsrScore a) l.

(** ** Quantities the properties of the aggregator are stated with *)

(** The dwell times of a route, added up. *)
Definition totalDwell (route : list ScheduleItem) : Qc :=
  foldr (λ item total, dwellTime item + total) 0 route.

(** The number of legs of a route, closing leg included, as a number. *)
Definition legCount (route : list ScheduleItem) : Qc :=
  Q2Qc (inject_Z (Z.of_nat (length route + 1))).

(** ** The recommendations panel ([components/poi-recommendations.tsx]) *)

(** The callback of [recommendations.filter], for the selected filter key. *)
Definition matchesFilter (selectedFilter : string) (poi : POI.t) : bool :=
  if String.eqb selectedFilter "onRoute" then POI.isOnRoute poi
  else if String.eqb selectedFilter "highRated" then Qcleb $4.5 (POI.rating poi)
  else if String.eqb selectedFilter "all" then true
  else String.eqb (POI.type poi) selectedFilter.

Definition filteredRecommendations (selectedFilter : string)
    (recommendations : list POI.t) : list POI.t :=
  filter (λ poi, matchesFilter selectedFilter poi = true) recommendations.

Section Collaborators.
Context `{Host}.

(** The callback of [poiDatabase.map]. *)
Definition recommend (startLocation : string) (poi : Catalog.entry) (index : nat)
  : Rand POI.t :=
  factors ← generateRouteFactors startLocation (Catalog.name poi);
  let dsrScore := calculateDSRScore factors $3 in
  r1 ← Math_random;
  r2 ← Math_random;
  mret {|
    POI.id := "poi-" +:+ pretty index;
    POI.name := Catalog.name poi;
    POI.type := Catalog.type poi;
    POI.rating := Catalog.baseRating poi + (r1 - $0.5) * $0.4;
    POI.distance := distance factors;
    POI.estimatedTime := duration factors;
    POI.priceRange :=
      if Qcltb (cost factors) $100 then "₹"
      else if Qcltb (cost factors) $300 then "₹₹" else "₹₹₹";
    POI.isOnRoute := Qcltb $0.6 r2;
    POI.description :=
      Catalog.type poi +:+ " with excellent service and convenient location";
    POI.dsrScore := dsrScore
  |}.

Definition generatePOIRecommendations (currentRoute : list ScheduleItem)
    (startLocation endLocation : string) : Rand (list POI.t) :=
  recommendations ← Array_map (recommend startLocation) poiDatabase 0;
  Array_sort byScore recommendations.

(** ** Backend integration ([optimizeRouteWithBackend],
    [getPOIRecommendationsWithBackend])

    [remote] is what the client's method does when the class declares it;
    [useBackend] is [None] when the argument is left out (default [true]). *)
Definition optimizeRouteWithBackend
    (remote : RouteOptimizationRequest.t → Outcome OptimizationResult)
    (startLocation endLocation : string) (scheduleItems : list ScheduleItem)
    (maxTime : option Qc) (useBackend : option bool) : Rand OptimizationResult :=
  if default true useBackend then
    let request := {|
      RouteOptimizationRequest.startLocation := startLocation;
      RouteOptimizationRequest.endLocation := endLocation;
      RouteOptimizationRequest.scheduleItems := scheduleItems;
      RouteOptimizationRequest.maxTime := maxTime;
      RouteOptimizationRequest.userPreferences := {|
        UserPreferences.prioritizeTime := true;
        UserPreferences.prioritizeCost := false;
        UserPreferences.avoidTraffic := true |}
    |} in
    match invoke (apiClient_member "optimizeRoute" remote) request with
    | Resolved response =>
        mret {|
          originalRoute := originalRoute response;
          optimizedRoute := optimizedRoute response;
          userPlan := userPlan response;
          alternativePlan := alternativePlan response;
          metrics := metrics response
        |}
    | Rejected =>
        optimizeRouteRL startLocation endLocation scheduleItems maxTime
    end
  else optimizeRouteRL startLocation endLocation scheduleItems maxTime.

Definition getPOIRecommendationsWithBackend
    (remote : POIRecommendationsRequest.t → Outcome POIRecommendationsResponse.t)
    (currentRoute : list ScheduleItem) (startLocation endLocation : string)
    (useBackend : option bool) : Rand (list POI.t) :=
  if default true useBackend then
    match invoke (apiClient_member "getPOIRecommendations" remote)
            {| POIRecommendationsRequest.currentRoute := currentRoute;
               POIRecommendationsRequest.startLocation := startLocation;
               POIRecommendationsRequest.endLocation := endLocation;
               POIRecommendationsRequest.filters := [];
               POIRecommendationsRequest.radius := $5 |} with
    | Resolved response =>
        mret (POIRecommendationsResponse.recommendations response)
    | Rejected => generatePOIRecommendations currentRoute startLocation endLocation
    end
  else generatePOIRecommendations currentRoute startLocation endLocation.

End Collaborators.

(** ** A concrete host and random sources, for running the engine *)

(** Small-angle stand-ins for the trigonometric functions; the
    theorems hold for every host, this one lets the engine compute. *)
Definition sampleHost : Host := {|
  Math_sin := λ x, x;
  Math_cos := λ x, 1;
  Math_sqrt := λ x, if Qcleb x 0 then 0 else (x + 1) / 2;
  Math_atan2 := λ y x, if Qcleb x 0 then 0 else y / x;
  Math_PI := $3.14;
  localeCompare := λ a b,
    match String.compare a b with Lt => - 1 | Eq => 0 | Gt => 1 end
|}.

(** The generator that always returns [r]. *)
Definition constantSource (r : Qc) : RandomSource :=
  {| draws := λ _, r; next := 0 |}.

(** The generator that returns 0, 1/7, ..., 6/7, 0, 1/7, ... *)
Definition cyclingSource : RandomSource :=
  {| draws := λ n, Q2Qc (Z.of_nat (n mod 7) # 7); next := 0 |}.

(** A generator whose values look scrambled:
    [(7919·n + 13) mod 10007 / 10007]. *)
Definition scrambledSource : RandomSource :=
  {| draws := λ n, Q2Qc (Z.modulo (Z.of_nat n * 7919 + 13) 10007 # 10007);
     next := 0 |}.

(** The source [g] in a process that drew [d] other values before. *)
Definition delayedSource (d : nat) (g : RandomSource) : RandomSource :=
  {| draws := λ n, draws g (n - d); next := d + next g |}.

Definition item (name type : string) (priority dwellTime : Qc) : ScheduleItem :=
  {| id := name; name := name; type := type; priority := priority;
     dwellTime := dwellTime; targetArrival := None; notes := None |}.

(** The destinations of the specification's scenarios. *)
Definition destinationA : ScheduleItem := item "A" "errand" $5 $60.
Definition destinationB : ScheduleItem := item "B" "errand" $2 $30.

(** The factors of a five-kilometre leg. *)
Definition sampleFactors : RouteFactors :=
  {| distance := $5; walkingDistance := 1; trafficLights := $4;
     expediteRatio := $0.6; slowRatio := $0.3; congestionRatio := $0.2;
     unknownRatio := $0.1; duration := $20; dailySales := $500;
     rating := $4.2; cost := $100 |}.

(** A candidate that takes 120 minutes. *)
Definition lateCandidate : Candidate :=
  {| route := [destinationA]; routeScore := 1; routeTime := $120; routeCost := 0 |}.


(** * Properties *)

(** ** Comparisons and the monad *)

Lemma Qcltb_lt (x y : Qc) : Qcltb x y = true ↔ x < y.
Proof.
  unfold Qcltb. rewrite Qclt_alt. destruct (x ?= y); split; congruence.
Qed.

Lemma Qcleb_le (x y : Qc) : Qcleb x y = true ↔ x ≤ y.
Proof.
  unfold Qcleb. rewrite Qcle_alt. destruct (x ?= y); split; congruence.
Qed.

Lemma Qcltb_ge (x y : Qc) : Qcltb x y = false ↔ y ≤ x.
Proof.
  rewrite Qcle_ngt, <- Qcltb_lt. destruct (Qcltb x y); split; congruence.
Qed.

Lemma Qcleb_gt (x y : Qc) : Qcleb x y = false ↔ y < x.
Proof.
  rewrite Qclt_nge, <- Qcleb_le. destruct (Qcleb x y); split; congruence.
Qed.

Lemma Qcmult_nonneg (x y : Qc) : 0 ≤ x → 0 ≤ y → 0 ≤ x * y.
Proof.
  intros Hx Hy. rewrite <- (Qcmult_0_l y). apply Qcmult_le_compat_r; assumption.
Qed.

Lemma Math_max_l (x y : Qc) : x ≤ Math_max x y.
Proof.
  unfold Math_max. destruct (Qcltb x y) eqn:E.
  - apply Qclt_le_weak, Qcltb_lt, E.
  - apply Qcle_refl.
Qed.

Lemma Math_max_r (x y : Qc) : y ≤ Math_max x y.
Proof.
  unfold Math_max. destruct (Qcltb x y) eqn:E.
  - apply Qcle_refl.
  - apply Qcltb_ge, E.
Qed.

Lemma Math_max_cases (x y : Qc) : Math_max x y = x ∨ Math_max x y = y.
Proof. unfold Math_max. destruct (Qcltb x y); auto. Qed.

Lemma Rand_bind_eq {A B} (f : A → Rand B) (c : Rand A) (g : RandomSource) :
  (c ≫= f) g = f (c g).1 (c g).2.
Proof. unfold mbind, Rand_bind. destruct (c g); reflexivity. Qed.

Lemma Rand_ret_eq {A} (a : A) (g : RandomSource) : (mret a : Rand A) g = (a, g).
Proof. reflexivity. Qed.

(** ** Sorting permutes *)

Ltac rand_simpl :=
  repeat first [rewrite Rand_bind_eq | rewrite Rand_ret_eq]; cbn [fst snd].

Lemma Array_insert_perm {A} (comparefn : A → A → Rand Qc) x l g :
  (Array_insert comparefn x l g).1 ≡ₚ x :: l.
Proof.
  revert g. induction l as [|y l IH]; intros g; cbn [Array_insert].
  - reflexivity.
  - rand_simpl. destruct (Qcltb 0 _).
    + rand_simpl. rewrite IH. apply Permutation_swap.
    + reflexivity.
Qed.

Lemma Array_sort_perm {A} (comparefn : A → A → Rand Qc) l g :
  (Array_sort comparefn l g).1 ≡ₚ l.
Proof.
  revert g. induction l as [|x l IH]; intros g; cbn [Array_sort].
  - reflexivity.
  - rand_simpl. rewrite Array_insert_perm, IH. reflexivity.
Qed.

(** ** Computations are functions of the draws *)

Lemma agree_refl g : agree g g.
Proof. intros k. reflexivity. Qed.

Lemma Respects_ret {A} (a : A) : Respects (mret a : Rand A).
Proof. intros g1 g2 Hg. split; [reflexivity|exact Hg]. Qed.

Lemma Respects_random : Respects Math_random.
Proof.
  intros g1 g2 Hg. unfold Math_random. cbn [fst snd]. split.
  - specialize (Hg 0%nat). rewrite !Nat.add_0_r in Hg. exact Hg.
  - intros k. cbn [draws next]. specialize (Hg (S k)).
    rewrite <- !Nat.add_succ_comm in Hg. exact Hg.
Qed.

Lemma Respects_bind {A B} (c : Rand A) (f : A → Rand B) :
  Respects c → (∀ a, Respects (f a)) → Respects (c ≫= f).
Proof.
  intros Hc Hf g1 g2 Hg. rewrite !Rand_bind_eq.
  destruct (Hc g1 g2 Hg) as [-> Hg']. apply Hf, Hg'.
Qed.

Lemma Respects_forOf {A S} (body : S → A → Rand S) l s :
  (∀ s x, Respects (body s x)) → Respects (forOf body l s).
Proof.
  intros Hb. revert s. induction l as [|x l IH]; intros s; cbn [forOf].
  - apply Respects_ret.
  - apply Respects_bind; [apply Hb|exact IH].
Qed.

Lemma Respects_insert {A} (comparefn : A → A → Rand Qc) x l :
  (∀ a b, Respects (comparefn a b)) → Respects (Array_insert comparefn x l).
Proof.
  intros Hc. induction l as [|y l IH]; cbn [Array_insert].
  - apply Respects_ret.
  - apply Respects_bind; [apply Hc|]. intros c. destruct (Qcltb 0 c).
    + apply Respects_bind; [exact IH|]. intros r. apply Respects_ret.
    + apply Respects_ret.
Qed.

Lemma Respects_sort {A} (comparefn : A → A → Rand Qc) l :
  (∀ a b, Respects (comparefn a b)) → Respects (Array_sort comparefn l).
Proof.
  intros Hc. induction l as [|x l IH]; cbn [Array_sort].
  - apply Respects_ret.
  - apply Respects_bind; [exact IH|]. intros r. apply Respects_insert, Hc.
Qed.

(** ** Computations only draw *)

Lemma Draws_ret {A} (a : A) : Draws (mret a : Rand A).
Proof. intros g. split; reflexivity. Qed.

Lemma Draws_random : Draws Math_random.
Proof. intros g. split; [reflexivity|]. cbn. lia. Qed.

Lemma Draws_bind {A B} (c : Rand A) (f : A → Rand B) :
  Draws c → (∀ a, Draws (f a)) → Draws (c ≫= f).
Proof.
  intros Hc Hf g. rewrite !Rand_bind_eq.
  destruct (Hc g) as [Hd Hn]. destruct (Hf (c g).1 (c g).2) as [Hd' Hn'].
  split; [congruence|lia].
Qed.

Lemma Draws_forOf {A S} (body : S → A → Rand S) l s :
  (∀ s x, Draws (body s x)) → Draws (forOf body l s).
Proof.
  intros Hb. revert s. induction l as [|x l IH]; intros s; cbn [forOf].
  - apply Draws_ret.
  - apply Draws_bind; [apply Hb|exact IH].
Qed.

Lemma Draws_insert {A} (comparefn : A → A → Rand Qc) x l :
  (∀ a b, Draws (comparefn a b)) → Draws (Array_insert comparefn x l).
Proof.
  intros Hc. induction l as [|y l IH]; cbn [Array_insert].
  - apply Draws_ret.
  - apply Draws_bind; [apply Hc|]. intros c. destruct (Qcltb 0 c).
    + apply Draws_bind; [exact IH|]. intros r. apply Draws_ret.
    + apply Draws_ret.
Qed.

Lemma Draws_sort {A} (comparefn : A → A → Rand Qc) l :
  (∀ a b, Draws (comparefn a b)) → Draws (Array_sort comparefn l).
Proof.
  intros Hc. induction l as [|x l IH]; cbn [Array_sort].
  - apply Draws_ret.
  - apply Draws_bind; [exact IH|]. intros r. apply Draws_insert, Hc.
Qed.

Lemma Draws_valid {A} (c : Rand A) g :
  Draws c → validSource g → validSource (c g).2.
Proof. intros Hc Hg n. destruct (Hc g) as [-> _]. apply Hg. Qed.

Create HintDb rand discriminated.
#[export] Hint Resolve Respects_ret Respects_random Respects_forOf
  Respects_insert Respects_sort Draws_ret Draws_random Draws_forOf
  Draws_insert Draws_sort : rand.

(** Break a computation written with binds into its steps. *)
Ltac rand_steps :=
  repeat first
    [ apply Respects_bind; [|intros ?]
    | apply Draws_bind; [|intros ?]
    | progress eauto with rand ].

(** ** Sorting by priority *)

Lemma Qclt_0_minus (x y : Qc) : 0 < y - x ↔ x < y.
Proof.
  rewrite (Qcplus_lt_mono_r x y (- x)), Qcplus_opp_r. reflexivity.
Qed.

Lemma byPriority_eq a b g : byPriority a b g = (priority b - priority a, g).
Proof. reflexivity. Qed.

Lemma Array_insert_byPriority_state x l g : (Array_insert byPriority x l g).2 = g.
Proof.
  induction l as [|y l IH]; cbn [Array_insert]; [reflexivity|].
  rand_simpl. rewrite !byPriority_eq. cbn [fst snd]. destruct (Qcltb 0 _); rand_simpl; auto.
Qed.

Lemma Array_sort_byPriority_state l g : (Array_sort byPriority l g).2 = g.
Proof.
  induction l as [|x l IH]; cbn [Array_sort]; [reflexivity|].
  rand_simpl. rewrite Array_insert_byPriority_state. exact IH.
Qed.

Lemma Array_insert_byPriority_sorted x l g :
  priorityDescending l → priorityDescending (Array_insert byPriority x l g).1.
Proof.
  unfold priorityDescending. induction 1 as [|y l Hl IH Hy]; cbn [Array_insert].
  - repeat constructor.
  - rand_simpl. rewrite !byPriority_eq. cbn [fst snd].
    destruct (Qcltb 0 _) eqn:E; rand_simpl.
    + constructor; [exact IH|].
      rewrite Array_insert_perm. constructor; [|exact Hy].
      apply Qclt_le_weak, Qclt_0_minus, Qcltb_lt, E.
    + assert (priority y ≤ priority x) as Hxy.
      { apply Qcle_ngt. intros Hlt. apply Qclt_0_minus in Hlt. apply Qcltb_lt in Hlt.
        rewrite Hlt in E. discriminate. }
      constructor; [constructor; assumption|].
      constructor; [exact Hxy|].
      eapply Forall_impl; [exact Hy|]. intros z Hz. cbn in Hz.
      eapply Qcle_trans; eassumption.
Qed.

Lemma Array_sort_byPriority_sorted l g :
  priorityDescending (Array_sort byPriority l g).1.
Proof.
  revert g. induction l as [|x l IH]; intros g; cbn [Array_sort].
  - constructor.
  - rand_simpl. apply Array_insert_byPriority_sorted, IH.
Qed.

Lemma Array_insert_byPriority_ties x l g (p : Qc) :
  filter (λ z, priority z = p) (Array_insert byPriority x l g).1 =
  filter (λ z, priority z = p) (x :: l).
Proof.
  induction l as [|y l IH]; cbn [Array_insert]; [reflexivity|].
  rand_simpl. rewrite !byPriority_eq. cbn [fst snd].
  destruct (Qcltb 0 _) eqn:E; rand_simpl; [|reflexivity].
  apply Qcltb_lt in E. apply (proj1 (Qclt_0_minus _ _)) in E.
  rewrite filter_cons, IH, !filter_cons.
  destruct (decide (priority y = p)) as [Hy|Hy];
    destruct (decide (priority x = p)) as [Hx|Hx]; try reflexivity.
  exfalso. rewrite Hx, Hy in E. exact (Qclt_not_eq _ _ E eq_refl).
Qed.

Lemma Array_sort_byPriority_ties l g : tiesKeepOrder l (Array_sort byPriority l g).1.
Proof.
  intros p. revert g. induction l as [|x l IH]; intros g; cbn [Array_sort].
  - reflexivity.
  - rand_simpl. rewrite Array_insert_byPriority_ties, !filter_cons, IH.
    reflexivity.
Qed.

Section Properties.
Context `{Host}.

(** The engine, one stage after the other, with the state of the random
    source each stage starts from. *)
Lemma optimizeRouteRL_stages startLocation endLocation scheduleItems maxTime g :
  let search := stochasticSearch startLocation endLocation scheduleItems maxTime g in
  let pruned := pruneIfGiven startLocation (bestRoute search.1) maxTime search.2 in
  let alt := Array_sort byTypeThenPriority scheduleItems pruned.2 in
  let originalTime := calculateTotalTime startLocation endLocation scheduleItems alt.2 in
  let optimizedTime :=
    calculateTotalTime startLocation endLocation pruned.1.1 originalTime.2 in
  let originalDistance :=
    calculateTotalDistance startLocation endLocation scheduleItems in
  let optimizedDistance :=
    calculateTotalDistance startLocation endLocation pruned.1.1 in
  optimizeRouteRL startLocation endLocation scheduleItems maxTime g =
  ({| originalRoute := scheduleItems;
      optimizedRoute := pruned.1.1;
      userPlan := scheduleItems;
      alternativePlan :=
        if Nat.eqb (length alt.1) (length pruned.1.1) then None else Some alt.1;
      metrics := {|
        totalDistance := optimizedDistance;
        totalTime := optimizedTime.1;
        timeSaved := Math_max 0 (originalTime.1 - optimizedTime.1);
        costSaved := Math_max 0 ((originalDistance - optimizedDistance) * $15);
        droppedPOIs := pruned.1.2 |} |},
   optimizedTime.2).
Proof.
  intros. unfold optimizeRouteRL. rewrite !Rand_bind_eq. reflexivity.
Qed.


(** C5. The Desirability Scorer returns [0.7·combined + 0.3·(priority/5)]
    with [combined = 0.3·spatial + 0.3·traffic + 0.4·service] and the three
    sub-scores of the specification.  It takes no random source: its value is
    a function of the Travel Factors and the priority alone. *)
Theorem calculateDSRScore_formula (factors : RouteFactors) (priority : Qc) :
  let spatial :=
    1 - $0.4 * Math_min (distance factors / $10) 1
      - $0.3 * Math_min (walkingDistance factors / 2) 1
      - $0.3 * Math_min (trafficLights factors / $10) 1 in
  let traffic :=
    $0.6 * expediteRatio factors + $0.4 * (1 - congestionRatio factors) in
  let service :=
    $0.7 * Math_min (rating factors / $5) 1 +
    $0.3 * Math_min (dailySales factors / $1000) 1 in
  let combined := $0.3 * spatial + $0.3 * traffic + $0.4 * service in
  calculateDSRScore factors priority = $0.7 * combined + $0.3 * (priority / $5).
Proof.
  intros. subst spatial traffic service combined. unfold calculateDSRScore. ring.
Qed.

(** ** The engine's computations respect the draws *)

Lemma Respects_generateRouteFactors from to : Respects (generateRouteFactors from to).
Proof. unfold generateRouteFactors. rand_steps. Qed.

Lemma Draws_generateRouteFactors from to : Draws (generateRouteFactors from to).
Proof. unfold generateRouteFactors. rand_steps. Qed.

Lemma generateRouteFactors_state from to g :
  (generateRouteFactors from to g).2 = advance 10 g.
Proof. reflexivity. Qed.

Lemma Respects_randomOrder a b : Respects (randomOrder a b).
Proof. unfold randomOrder. rand_steps. Qed.

Lemma Draws_randomOrder a b : Draws (randomOrder a b).
Proof. unfold randomOrder. rand_steps. Qed.

Lemma Respects_scoreLeg st x : Respects (scoreLeg st x).
Proof. unfold scoreLeg. rand_steps. Qed.

Lemma Draws_scoreLeg st x : Draws (scoreLeg st x).
Proof. unfold scoreLeg. rand_steps. Qed.

Lemma Respects_timeLeg st x : Respects (timeLeg st x).
Proof. unfold timeLeg. rand_steps. Qed.

Lemma Draws_pruneStep maxTime st x : Draws (pruneStep maxTime st x).
Proof.
  unfold pruneStep. apply Draws_bind; [apply Draws_generateRouteFactors|].
  intros factors. destruct (Qcleb _ _); apply Draws_ret.
Qed.

#[local] Hint Resolve Respects_generateRouteFactors Draws_generateRouteFactors
  Respects_randomOrder Draws_randomOrder Respects_scoreLeg Draws_scoreLeg
  Respects_timeLeg : rand.

Lemma Respects_sampleRoute startLocation endLocation currentRoute :
  Respects (sampleRoute startLocation endLocation currentRoute).
Proof. unfold sampleRoute. rand_steps. Qed.

Lemma Draws_sampleRoute startLocation endLocation currentRoute :
  Draws (sampleRoute startLocation endLocation currentRoute).
Proof. unfold sampleRoute. rand_steps. Qed.

Lemma Respects_searchLoop n startLocation endLocation currentRoute maxTime best :
  Respects (searchLoop n startLocation endLocation currentRoute maxTime best).
Proof.
  revert best. induction n as [|n IH]; intros best; cbn [searchLoop].
  - apply Respects_ret.
  - apply Respects_bind; [apply Respects_sampleRoute|]. intros c. apply IH.
Qed.

Lemma Draws_searchLoop n startLocation endLocation currentRoute maxTime best :
  Draws (searchLoop n startLocation endLocation currentRoute maxTime best).
Proof.
  revert best. induction n as [|n IH]; intros best; cbn [searchLoop].
  - apply Draws_ret.
  - apply Draws_bind; [apply Draws_sampleRoute|]. intros c. apply IH.
Qed.

Lemma Respects_calculateTotalTime startLocation endLocation route :
  Respects (calculateTotalTime startLocation endLocation route).
Proof. unfold calculateTotalTime. rand_steps. Qed.

(** ** The search returns a permutation of its input *)

Lemma sampleRoute_perm startLocation endLocation currentRoute g :
  route (sampleRoute startLocation endLocation currentRoute g).1 ≡ₚ currentRoute.
Proof.
  unfold sampleRoute. rand_simpl. cbn [route]. apply Array_sort_perm.
Qed.

Lemma searchLoop_perm n startLocation endLocation currentRoute maxTime best g :
  bestRoute best ≡ₚ currentRoute →
  bestRoute (searchLoop n startLocation endLocation currentRoute maxTime best g).1
    ≡ₚ currentRoute.
Proof.
  revert best g. induction n as [|n IH]; intros best g Hbest; cbn [searchLoop].
  - exact Hbest.
  - rand_simpl. apply IH. unfold keepBetter. destruct (better _ _); [|exact Hbest].
    cbn [bestRoute]. apply sampleRoute_perm.
Qed.

Lemma stochasticSearch_perm startLocation endLocation scheduleItems maxTime g :
  bestRoute (stochasticSearch startLocation endLocation scheduleItems maxTime g).1
    ≡ₚ scheduleItems.
Proof. apply searchLoop_perm. reflexivity. Qed.

(** ** The search keeps the first best trial *)

Lemma searchLoop_trials n startLocation endLocation currentRoute maxTime best g :
  let run := trials n startLocation endLocation currentRoute g in
  searchLoop n startLocation endLocation currentRoute maxTime best g =
  (foldl (keepBetter maxTime) best run.1, run.2).
Proof.
  cbn zeta. revert best g. induction n as [|n IH]; intros best g; cbn [searchLoop trials].
  - reflexivity.
  - rand_simpl. rewrite IH. reflexivity.
Qed.

Lemma trials_length n startLocation endLocation currentRoute g :
  length (trials n startLocation endLocation currentRoute g).1 = n.
Proof.
  revert g. induction n as [|n IH]; intros g; cbn [trials]; [reflexivity|].
  rand_simpl. cbn [length]. rewrite IH. reflexivity.
Qed.

Lemma trials_perm n startLocation endLocation currentRoute g c :
  c ∈ (trials n startLocation endLocation currentRoute g).1 →
  route c ≡ₚ currentRoute.
Proof.
  revert g. induction n as [|n IH]; intros g; cbn [trials].
  - cbn. intros Hc. inversion Hc.
  - rand_simpl. intros [->|Hc]%elem_of_cons; [apply sampleRoute_perm|].
    eapply IH, Hc.
Qed.

Lemma keepBetter_first maxTime seen best c :
  (seen = [] ∧ bestScore best = None) ∨ FirstBest maxTime seen best →
  FirstBest maxTime (seen ++ [c]) (keepBetter maxTime best c).
Proof.
  unfold keepBetter. intros [[-> Hnone]|(i & c0 & Hi & Hs & Hr & Hmax & Hfirst)].
  - rewrite Hnone. cbn [better app]. exists 0%nat, c. cbn.
    repeat split.
    + intros [|j] c'; cbn; [|discriminate]. intros [= <-]. apply Qcle_refl.
    + intros j c' Hj. inversion Hj.
  - rewrite Hs. cbn [better].
    destruct (Qcltb (penalised maxTime c0) (penalised maxTime c)) eqn:E.
    + apply Qcltb_lt in E. exists (length seen), c. cbn [bestScore bestRoute].
      repeat split.
      * apply lookup_snoc_Some. right. auto.
      * intros j c' [[_ Hj]|[_ <-]]%lookup_snoc_Some; [|apply Qcle_refl].
        apply Qclt_le_weak. eapply Qcle_lt_trans; [eapply Hmax, Hj|exact E].
      * intros j c' Hlt [[_ Hj]|[-> _]]%lookup_snoc_Some; [|lia].
        eapply Qcle_lt_trans; [eapply Hmax, Hj|exact E].
    + apply Qcltb_ge in E. exists i, c0. repeat split.
      * apply lookup_app_l_Some, Hi.
      * exact Hs.
      * exact Hr.
      * intros j c' [[_ Hj]|[_ <-]]%lookup_snoc_Some; [eapply Hmax, Hj|exact E].
      * intros j c' Hlt [[_ Hj]|[-> _]]%lookup_snoc_Some; [eapply Hfirst; eassumption|].
        apply lookup_lt_Some in Hi. lia.
Qed.

Lemma foldl_keepBetter_first maxTime cs seen best :
  (seen = [] ∧ bestScore best = None) ∨ FirstBest maxTime seen best →
  cs ≠ [] →
  FirstBest maxTime (seen ++ cs) (foldl (keepBetter maxTime) best cs).
Proof.
  revert seen best. induction cs as [|c cs IH]; intros seen best Hinv Hne.
  - congruence.
  - cbn [foldl]. apply (keepBetter_first _ _ _ c) in Hinv.
    destruct cs as [|c' cs].
    + exact Hinv.
    + replace (seen ++ c :: c' :: cs) with ((seen ++ [c]) ++ c' :: cs)
        by (rewrite <- app_assoc; reflexivity).
      apply IH; [right; exact Hinv|discriminate].
Qed.

Lemma given_Some maxTime m : given maxTime = Some m ↔ maxTime = Some m ∧ m ≠ 0.
Proof.
  unfold given. destruct maxTime as [m'|]; [|split; [discriminate|intros [? _]; discriminate]].
  destruct (m' ?= 0) eqn:E.
  - apply Qceq_alt in E. split; [discriminate|]. intros [[= ->] Hm]. contradiction.
  - split; intros Hm; [injection Hm as ->|destruct Hm as [Hm _]; exact Hm].
    split; [reflexivity|]. intros ->. rewrite (proj1 (Qceq_alt 0 0) eq_refl) in E.
    discriminate.
  - split; intros Hm; [injection Hm as ->|destruct Hm as [Hm _]; exact Hm].
    split; [reflexivity|]. intros ->. rewrite (proj1 (Qceq_alt 0 0) eq_refl) in E.
    discriminate.
Qed.


(** ** The pruner splits its input *)

Lemma forOf_pruneStep_perm maxTime l st g :
  let st' := (forOf (pruneStep maxTime) l st g).1 in
  validRoute st' ++ dropped st' ≡ₚ (validRoute st ++ dropped st) ++ l.
Proof.
  revert st g. induction l as [|x l IH]; intros st g; cbn [forOf].
  - cbn. rewrite app_nil_r. reflexivity.
  - cbn zeta in *. rand_simpl. rewrite IH. unfold pruneStep. rand_simpl.
    destruct (Qcleb _ _); rand_simpl; cbn [validRoute dropped].
    + rewrite <- !app_assoc. cbn [app].
      rewrite (Permutation_middle (dropped st) l x). reflexivity.
    + rewrite <- !app_assoc. reflexivity.
Qed.

Lemma prune_perm startLocation optimizedRoute maxTime g :
  let st := (prune startLocation optimizedRoute maxTime g).1 in
  validRoute st ++ dropped st ≡ₚ optimizedRoute.
Proof.
  cbn zeta. unfold prune. rand_simpl. rewrite forOf_pruneStep_perm.
  cbn [validRoute dropped app]. apply Array_sort_perm.
Qed.

Lemma pruneIfGiven_perm startLocation bestRoute maxTime g :
  let pruned := (pruneIfGiven startLocation bestRoute maxTime g).1 in
  pruned.1 ++ pruned.2 ≡ₚ bestRoute.
Proof.
  cbn zeta. unfold pruneIfGiven. destruct (given maxTime) as [m|].
  - rand_simpl. apply prune_perm.
  - cbn. rewrite app_nil_r. reflexivity.
Qed.

(** ** The pruner follows the specification's walk *)

Lemma pruneStep_eq maxTime st x g :
  let leg := generateRouteFactors (currentLocation st) (name x) g in
  let itemTime := duration leg.1 + dwellTime x in
  pruneStep maxTime st x g =
  (if Qcleb (currentTime st + itemTime) (maxTime * $0.9) then
     {| currentTime := currentTime st + itemTime;
        currentLocation := name x;
        validRoute := validRoute st ++ [x];
        dropped := dropped st |}
   else
     {| currentTime := currentTime st;
        currentLocation := currentLocation st;
        validRoute := validRoute st;
        dropped := dropped st ++ [x] |},
   leg.2).
Proof.
  cbn zeta. unfold pruneStep. rand_simpl. destruct (Qcleb _ _); reflexivity.
Qed.

Lemma forOf_pruneStep_walk maxTime l st g :
  let run := forOf (pruneStep maxTime) l st g in
  ∃ admitted droppedNow,
    Walk (maxTime * $0.9) (currentTime st) (currentLocation st) g l
      admitted droppedNow run.2 ∧
    validRoute run.1 = validRoute st ++ admitted.*1 ∧
    dropped run.1 = dropped st ++ droppedNow ∧
    currentTime run.1 = currentTime st + sumTimes admitted ∧
    (currentTime st ≤ maxTime * $0.9 ∨ admitted ≠ [] →
     currentTime run.1 ≤ maxTime * $0.9).
Proof.
  cbn zeta. revert st g. induction l as [|x l IH]; intros st g; cbn [forOf].
  - exists [], []. cbn. rewrite !app_nil_r, Qcplus_0_r.
    repeat split; [constructor|]. intros [?|?]; [assumption|congruence].
  - rand_simpl. rewrite pruneStep_eq. cbn [fst snd].
    set (t := duration _ + dwellTime x).
    destruct (Qcleb (currentTime st + t) (maxTime * $0.9)) eqn:E.
    + apply Qcleb_le in E.
      edestruct IH as (admitted & droppedNow & Hw & Hv & Hd & Ht & Hb).
      exists ((x, t) :: admitted), droppedNow.
      rewrite Hv, Hd, Ht. cbn [validRoute dropped currentTime currentLocation] in *.
      repeat split.
      * econstructor; [reflexivity|exact E|exact Hw].
      * rewrite <- app_assoc. reflexivity.
      * cbn. rewrite Qcplus_assoc. reflexivity.
      * intros _. rewrite <- Ht. apply Hb. left. exact E.
    + apply Qcleb_gt in E.
      edestruct IH as (admitted & droppedNow & Hw & Hv & Hd & Ht & Hb).
      exists admitted, (x :: droppedNow).
      rewrite Hv, Hd, Ht. cbn [validRoute dropped currentTime currentLocation] in *.
      repeat split.
      * econstructor; [reflexivity|exact E|exact Hw].
      * rewrite <- app_assoc. reflexivity.
      * intros Hpre. rewrite <- Ht. apply Hb. exact Hpre.
Qed.

Lemma prune_walk startLocation optimizedRoute maxTime g :
  let sortedByPriority := (Array_sort byPriority optimizedRoute g).1 in
  let run := prune startLocation optimizedRoute maxTime g in
  ∃ admitted,
    Walk (maxTime * $0.9) 0 startLocation g sortedByPriority
      admitted (dropped run.1) run.2 ∧
    validRoute run.1 = admitted.*1 ∧
    currentTime run.1 = sumTimes admitted ∧
    (0 ≤ maxTime ∨ admitted ≠ [] → sumTimes admitted ≤ maxTime * $0.9).
Proof.
  cbn zeta. unfold prune. rand_simpl.
  rewrite Array_sort_byPriority_state.
  edestruct forOf_pruneStep_walk as (admitted & droppedNow & Hw & Hv & Hd & Ht & Hb).
  exists admitted. rewrite Hv, Hd, Ht.
  cbn [validRoute dropped currentTime currentLocation app] in *.
  rewrite Qcplus_0_l in *. repeat split; [exact Hw|].
  intros Hpre. rewrite <- Ht. apply Hb. destruct Hpre as [Hm|Hne]; [left|right; exact Hne].
  apply Qcmult_nonneg; [exact Hm|]. discriminate.
Qed.


(** With a budget given, the optimized route and the dropped list of the
    result are the pruner's, run on the route the search found. *)
Lemma optimizeRouteRL_prunes startLocation endLocation scheduleItems maxTime m g :
  given maxTime = Some m →
  let r := (optimizeRouteRL startLocation endLocation scheduleItems maxTime g).1 in
  let search := stochasticSearch startLocation endLocation scheduleItems maxTime g in
  let run := prune startLocation (bestRoute search.1) m search.2 in
  optimizedRoute r = validRoute run.1 ∧ droppedPOIs (metrics r) = dropped run.1.
Proof.
  intros Hm. cbn zeta. rewrite optimizeRouteRL_stages.
  cbn [fst snd optimizedRoute metrics droppedPOIs].
  unfold pruneIfGiven. rewrite Hm. rand_simpl. auto.
Qed.

(** C2. Whatever the budget (supplied or not), the optimized sequence
    followed by the dropped list is a rearrangement of the input destination
    list: every input destination occurs in exactly one of the two lists, as
    often as it occurs in the input. *)
Theorem optimizeRouteRL_partitions_input
    (startLocation endLocation : string) (scheduleItems : list ScheduleItem)
    (maxTime : option Qc) (g : RandomSource) :
  let r := (optimizeRouteRL startLocation endLocation scheduleItems maxTime g).1 in
  optimizedRoute r ++ droppedPOIs (metrics r) ≡ₚ scheduleItems.
Proof.
  cbn zeta. rewrite optimizeRouteRL_stages.
  cbn [fst snd optimizedRoute metrics droppedPOIs].
  rewrite pruneIfGiven_perm. apply stochasticSearch_perm.
Qed.

(** C6. The result carries an [alternativePlan] only if the alternate
    sequence (the input sorted by type, then by priority descending) differs
    from the optimized sequence; when the two are the same sequence the plan
    is left out.  The engine's test is on the lengths: the plan is left out
    exactly when the two sequences have the same length. *)
Theorem alternativePlan_only_if_different
    (startLocation endLocation : string) (scheduleItems : list ScheduleItem)
    (maxTime : option Qc) (g : RandomSource) :
  let r := (optimizeRouteRL startLocation endLocation scheduleItems maxTime g).1 in
  let search := stochasticSearch startLocation endLocation scheduleItems maxTime g in
  let pruned := pruneIfGiven startLocation (bestRoute search.1) maxTime search.2 in
  let alternativeRoute := (Array_sort byTypeThenPriority scheduleItems pruned.2).1 in
  (∀ plan, alternativePlan r = Some plan →
     plan = alternativeRoute ∧ plan ≠ optimizedRoute r) ∧
  (alternativeRoute = optimizedRoute r → alternativePlan r = None) ∧
  (alternativePlan r = None ↔ length alternativeRoute = length (optimizedRoute r)).
Proof.
  intros r search pruned alternativeRoute.
  subst r. rewrite optimizeRouteRL_stages.
  cbn [fst snd optimizedRoute alternativePlan].
  fold search. fold pruned. fold alternativeRoute.
  destruct (Nat.eqb_spec (length alternativeRoute) (length pruned.1.1)) as [E|E].
  - split; [intros plan; discriminate|]. split; [reflexivity|]. split; auto.
  - split; [|split; [|split]].
    + intros plan [= <-]. split; [reflexivity|]. intros Heq. apply E. f_equal. exact Heq.
    + intros Heq. exfalso. apply E. f_equal. exact Heq.
    + discriminate.
    + intros Hlen. contradiction.
Qed.

(** ** The aggregator's clock reads the random source *)

Lemma advance_advance a b g : advance a (advance b g) = advance (a + b) g.
Proof. unfold advance. cbn [draws next]. f_equal. lia. Qed.

Lemma forOf_timeLeg_state l st g :
  (forOf timeLeg l st g).2 = advance (10 * length l) g.
Proof.
  revert st g. induction l as [|x l IH]; intros st g; cbn [forOf].
  - destruct g. reflexivity.
  - rand_simpl. rewrite IH.
    change (timeLeg st x g).2 with (advance 10 g).
    rewrite advance_advance. f_equal. cbn [length]. lia.
Qed.

Lemma calculateTotalTime_state startLocation endLocation route g :
  (calculateTotalTime startLocation endLocation route g).2 =
  advance (10 * (length route + 1)) g.
Proof.
  unfold calculateTotalTime. rand_simpl.
  rewrite generateRouteFactors_state, forOf_timeLeg_state, advance_advance.
  f_equal. lia.
Qed.

Lemma calculateTotalDistance_from acc startLocation endLocation route :
  (let '(totalDistance, currentLocation) :=
     fold_left
       (λ '(totalDistance, currentLocation) item,
          (totalDistance + calculateDistance currentLocation (name item), name item))
       route (acc, startLocation) in
   totalDistance + calculateDistance currentLocation endLocation) =
  acc + calculateTotalDistance startLocation endLocation route.
Proof.
  revert acc startLocation. induction route as [|x route IH]; intros acc startLocation.
  - unfold calculateTotalDistance. cbn [fold_left]. rewrite Qcplus_0_l. reflexivity.
  - unfold calculateTotalDistance. cbn [fold_left]. rewrite !IH.
    rewrite Qcplus_0_l, Qcplus_assoc. reflexivity.
Qed.

Lemma calculateTotalDistance_cons startLocation endLocation x route :
  calculateTotalDistance startLocation endLocation (x :: route) =
  calculateDistance startLocation (name x) +
  calculateTotalDistance (name x) endLocation route.
Proof.
  unfold calculateTotalDistance at 1. cbn [fold_left].
  rewrite calculateTotalDistance_from, Qcplus_0_l. reflexivity.
Qed.



(** ** A budget nothing fits in *)

Lemma forOf_pruneStep_all_dropped maxTime startLocation l st g :
  currentTime st = 0 →
  currentLocation st = startLocation →
  validSource g →
  (∀ x g', x ∈ l → validSource g' →
     maxTime * $0.9 <
     duration (generateRouteFactors startLocation (name x) g').1 + dwellTime x) →
  let st' := (forOf (pruneStep maxTime) l st g).1 in
  validRoute st' = validRoute st ∧ dropped st' = dropped st ++ l.
Proof.
  cbn zeta. revert st g. induction l as [|x l IH]; intros st g Ht Hloc Hg Hall;
    cbn [forOf].
  - cbn. rewrite app_nil_r. auto.
  - rand_simpl. rewrite pruneStep_eq. cbn [fst snd]. rewrite Ht, Hloc, Qcplus_0_l.
    rewrite (proj2 (Qcleb_gt _ _) (Hall x g (list_elem_of_here x l) Hg)).
    edestruct IH as [Hv Hd]; [..|rewrite Hv, Hd].
    + reflexivity.
    + reflexivity.
    + apply (Draws_valid (generateRouteFactors startLocation (name x)));
        [apply Draws_generateRouteFactors|exact Hg].
    + intros y g' Hy. apply Hall. right. exact Hy.
    + cbn [validRoute dropped]. rewrite <- app_assoc. auto.
Qed.

Lemma given_Some_eq m : m ≠ 0 → given (Some m) = Some m.
Proof. intros Hm. apply given_Some. auto. Qed.



End Properties.

(** * Runs of the engine on the sample host *)

Ltac qc_compute := apply Qc_is_canon; vm_compute; reflexivity.

Ltac qc_differ :=
  let E := fresh "E" in
  intros E; apply (f_equal this) in E; vm_compute in E; discriminate E.

Lemma agree_delayed d g : agree g (delayedSource d g).
Proof.
  intros k. cbn [delayedSource draws next]. f_equal. lia.
Qed.

Lemma validSource_constant r : 0 ≤ r → r < 1 → validSource (constantSource r).
Proof. intros H0 H1 n. cbn. auto. Qed.

Lemma duration_at_least `{Host} from to g :
  validSource g →
  calculateDistance from to * $3 ≤ duration (generateRouteFactors from to g).1.
Proof.
  intros Hg. cbn [generateRouteFactors]. unfold generateRouteFactors.
  rewrite !Rand_bind_eq. cbn [fst snd duration Math_random].
  rewrite <- (Qcplus_0_r (calculateDistance from to * $3)) at 1.
  apply Qcplus_le_compat; [apply Qcle_refl|].
  apply Qcmult_nonneg; [apply Hg|discriminate].
Qed.

(** The sort is stable: destinations of equal priority keep their order. *)
Example Array_sort_byPriority_stable :
  (Array_sort byPriority
     [item "p" "t" $2 0; item "q" "t" $5 0; item "r" "t" $2 0; item "s" "t" $5 0]
     (constantSource 0)).1 =
  [item "q" "t" $5 0; item "s" "t" $5 0; item "p" "t" $2 0; item "r" "t" $2 0].
Proof. vm_compute. reflexivity. Qed.

(** The scenario of the specification: A (priority 5, dwell 60) and
    B (priority 2, dwell 30) with a budget of 100 minutes. *)
Example scenario_budget_admits_A_only :
  let r := (optimizeRouteRL (H:=sampleHost) "Home" "Home"
              [destinationA; destinationB] (Some $100) scrambledSource).1 in
  optimizedRoute r = [destinationA] ∧
  droppedPOIs (metrics r) = [destinationB] ∧
  originalRoute r = [destinationA; destinationB].
Proof. vm_compute. auto. Qed.




(** ** The theorems at concrete inputs *)



(** A run in which B is dropped and the alternative plan is included. *)
Lemma alternativePlan_only_if_different_witness :
  let r := (optimizeRouteRL (H:=sampleHost) "Home" "Home"
              [destinationA; destinationB] (Some $100) scrambledSource).1 in
  alternativePlan r = Some [destinationA; destinationB] ∧
  [destinationA; destinationB] ≠ optimizedRoute r.
Proof.
  cbn zeta.
  assert (alternativePlan
            (optimizeRouteRL (H:=sampleHost) "Home" "Home"
               [destinationA; destinationB] (Some $100) scrambledSource).1 =
          Some [destinationA; destinationB]) as Hplan
    by (vm_compute; reflexivity).
  split; [exact Hplan|].
  destruct (alternativePlan_only_if_different (H:=sampleHost) "Home" "Home"
              [destinationA; destinationB] (Some $100) scrambledSource)
    as (Hdiff & _).
  apply (Hdiff _ Hplan).
Defined.





(** * Further properties of the engine and of its collaborators *)

(** ** Pairs *)

Lemma pair_fst {A B} (a : A) (b : B) : (a, b).1 = a.
Proof. reflexivity. Qed.

Lemma pair_snd {A B} (a : A) (b : B) : (a, b).2 = b.
Proof. reflexivity. Qed.

(** ** Arithmetic on rationals *)

Lemma Qcdiv_2 (x : Qc) : x / 2 = x * $0.5.
Proof. unfold Qcdiv. f_equal. Qed.

Lemma Qcdiv_5 (x : Qc) : x / $5 = x * $0.2.
Proof. unfold Qcdiv. f_equal. Qed.

Lemma Qcdiv_10 (x : Qc) : x / $10 = x * $0.1.
Proof. unfold Qcdiv. f_equal. Qed.

Lemma Qcdiv_1000 (x : Qc) : x / $1000 = x * $0.001.
Proof. unfold Qcdiv. f_equal. Qed.

(** Turn a goal about canonical rationals into one about fractions, where
    linear arithmetic is decided. *)
Ltac qc_atoms :=
  repeat match goal with
  | |- context [Math_min ?a ?b] =>
      let m := fresh "m" in set (m := Math_min a b) in *; clearbody m
  | _ : context [Math_min ?a ?b] |- _ =>
      let m := fresh "m" in set (m := Math_min a b) in *; clearbody m
  | |- context [Math_floor ?a] =>
      let m := fresh "m" in set (m := Math_floor a) in *; clearbody m
  | _ : context [Math_floor ?a] |- _ =>
      let m := fresh "m" in set (m := Math_floor a) in *; clearbody m
  end.

Ltac qc_to_q :=
  qc_atoms;
  rewrite ?Qcdiv_2, ?Qcdiv_5, ?Qcdiv_10, ?Qcdiv_1000 in *;
  repeat (unfold Qcle, Qclt, Qcplus, Qcmult, Qcminus, Qcopp, Q2Qc in *;
          cbn [this] in *);
  rewrite ?Qred_correct in *.

Ltac qc_lra := qc_to_q; lra.

Lemma Math_min_le_l (x y : Qc) : Math_min x y ≤ x.
Proof.
  unfold Math_min. destruct (Qcltb y x) eqn:E.
  - apply Qclt_le_weak, Qcltb_lt, E.
  - apply Qcle_refl.
Qed.

Lemma Math_min_le_r (x y : Qc) : Math_min x y ≤ y.
Proof.
  unfold Math_min. destruct (Qcltb y x) eqn:E.
  - apply Qcle_refl.
  - apply Qcltb_ge, E.
Qed.

Lemma Math_min_glb (x y z : Qc) : z ≤ x → z ≤ y → z ≤ Math_min x y.
Proof. intros Hx Hy. unfold Math_min. destruct (Qcltb y x); assumption. Qed.

Lemma Math_floor_le (x : Qc) : Math_floor x ≤ x.
Proof.
  unfold Math_floor, Qcle, Q2Qc. cbn [this]. rewrite Qred_correct.
  apply Qfloor_le.
Qed.

Lemma Math_floor_nonneg (x : Qc) : 0 ≤ x → 0 ≤ Math_floor x.
Proof.
  intros Hx. unfold Math_floor, Qcle, Q2Qc in *. cbn [this] in *.
  rewrite !Qred_correct in *.
  change 0%Q with (inject_Z 0). rewrite <- Zle_Qle.
  change 0%Z with (Qfloor (inject_Z 0)) at 1. apply Qfloor_resp_le, Hx.
Qed.

Lemma draw_bounds g k : validSource g → 0 ≤ draws g k ∧ draws g k < 1.
Proof. intros Hg. apply Hg. Qed.

(** Name the value a valid source returns at position [k], with its bounds. *)
Ltac name_draw Hg g k r :=
  let H0 := fresh "H0" r in
  let H1 := fresh "H1" r in
  destruct (draw_bounds g k Hg) as [H0 H1];
  change (draws g k) with (draws g k) in *;
  set (r := draws g k) in *; clearbody r.

Section MoreProperties.
Context `{Host}.

(** ** Geo Distance Estimator *)

Lemma calculateDistance_symmetric_aux (point1 point2 : string) :
  (∀ x, Math_sin (- x) = - Math_sin x) →
  calculateDistance point1 point2 = calculateDistance point2 point1.
Proof.
  intros Hodd. unfold calculateDistance.
  set (c1 := coordinateOf point1). set (c2 := coordinateOf point2).
  assert (∀ a b : Qc, (a - b) * Math_PI / $180 / 2 =
                      - ((b - a) * Math_PI / $180 / 2)) as Hneg
    by (intros a b; unfold Qcdiv; ring).
  rewrite (Hneg (lat c2) (lat c1)), (Hneg (lng c2) (lng c1)), !Hodd.
  set (u := Math_sin _). set (v := Math_sin _).
  set (p := Math_cos _). set (q := Math_cos _).
  replace (- u * - u + p * q * - v * - v) with (u * u + q * p * v * v) by ring.
  reflexivity.
Qed.

(** X1. On a host whose [Math.sin] is odd, the distance between two named
    locations does not depend on the direction. *)
Theorem calculateDistance_symmetric (point1 point2 : string) :
  (∀ x, Math_sin (- x) = - Math_sin x) →
  calculateDistance point1 point2 = calculateDistance point2 point1.
Proof. apply calculateDistance_symmetric_aux. Qed.


(** ** Travel Factor Synthesizer *)

Lemma factors_ranges (from to : string) (g : RandomSource) :
  validSource g →
  let factors := (generateRouteFactors from to g).1 in
  let d := calculateDistance from to in
  distance factors = d ∧
  ($0.4 ≤ expediteRatio factors ∧ expediteRatio factors < $0.8) ∧
  ($0.2 ≤ slowRatio factors ∧ slowRatio factors < $0.5) ∧
  ($0.1 ≤ congestionRatio factors ∧ congestionRatio factors < $0.3) ∧
  ($0.1 ≤ unknownRatio factors ∧ unknownRatio factors < $0.2) ∧
  ($3.5 ≤ rating factors ∧ rating factors < $5) ∧
  ($100 ≤ dailySales factors ∧ dailySales factors < $1100) ∧
  (d * $3 ≤ duration factors ∧ duration factors < d * $3 + $10) ∧
  (d * $15 ≤ cost factors ∧ cost factors < d * $15 + $50) ∧
  (d * $0.1 ≤ walkingDistance factors ∧
   walkingDistance factors < d * $0.1 + $0.5) ∧
  (trafficLights factors < d * 2 + $3 ∧ (0 ≤ d → 0 ≤ trafficLights factors)).
Proof.
  intros Hg factors d. subst factors d.
  unfold generateRouteFactors. rand_simpl.
  cbn [fst snd Math_random draws next distance expediteRatio slowRatio
       congestionRatio unknownRatio rating dailySales duration cost
       walkingDistance trafficLights].
  set (d := calculateDistance from to).
  split; [reflexivity|].
  name_draw Hg g (next g) r1.
  name_draw Hg g (S (next g)) r2.
  name_draw Hg g (S (S (next g))) r3.
  name_draw Hg g (S (S (S (next g)))) r4.
  name_draw Hg g (S (S (S (S (next g))))) r5.
  name_draw Hg g (S (S (S (S (S (next g)))))) r6.
  name_draw Hg g (S (S (S (S (S (S (next g))))))) r7.
  name_draw Hg g (S (S (S (S (S (S (S (next g)))))))) r8.
  name_draw Hg g (S (S (S (S (S (S (S (S (next g))))))))) r9.
  name_draw Hg g (S (S (S (S (S (S (S (S (S (next g)))))))))) r10.
  assert ($100 ≤ Math_floor (r8 * $1000) + $100 ∧
          Math_floor (r8 * $1000) + $100 < $1100) as Hsales.
  { assert (0 ≤ r8 * $1000) as Hnn by qc_lra.
    apply Math_floor_nonneg in Hnn.
    pose proof (Math_floor_le (r8 * $1000)) as Hle.
    set (s := Math_floor _) in *. clearbody s. split; qc_lra. }
  assert (Math_floor (d * 2 + r3 * $3) < d * 2 + $3 ∧
          (0 ≤ d → 0 ≤ Math_floor (d * 2 + r3 * $3))) as Hlights.
  { split.
    - clear Hsales. pose proof (Math_floor_le (d * 2 + r3 * $3)) as Hle.
      set (s := Math_floor _) in *. clearbody s. qc_lra.
    - intros Hd. apply Math_floor_nonneg. clear Hsales. qc_lra. }
  split; [clear Hsales Hlights; split; qc_lra|].
  split; [clear Hsales Hlights; split; qc_lra|].
  split; [clear Hsales Hlights; split; qc_lra|].
  split; [clear Hsales Hlights; split; qc_lra|].
  split; [clear Hsales Hlights; split; qc_lra|].
  split; [exact Hsales|].
  split; [clear Hsales Hlights; split; qc_lra|].
  split; [clear Hsales Hlights; split; qc_lra|].
  split; [clear Hsales Hlights; split; qc_lra|].
  exact Hlights.
Qed.


(** ** Desirability Scorer *)

Lemma score_bounds (factors : RouteFactors) (p : Qc)
    (sLo sHi tLo tHi vLo vHi : Qc) :
  let spatial :=
    1 - Math_min (distance factors / $10) 1 * $0.4
      - Math_min (walkingDistance factors / 2) 1 * $0.3
      - Math_min (trafficLights factors / $10) 1 * $0.3 in
  let traffic :=
    expediteRatio factors * $0.6 + (1 - congestionRatio factors) * $0.4 in
  let service :=
    Math_min (rating factors / $5) 1 * $0.7 +
    Math_min (dailySales factors / $1000) 1 * $0.3 in
  sLo ≤ spatial ∧ spatial ≤ sHi →
  tLo ≤ traffic ∧ traffic ≤ tHi →
  vLo ≤ service ∧ service ≤ vHi →
  (sLo * $0.3 + tLo * $0.3 + vLo * $0.4) * $0.7 + p * $0.06
    ≤ calculateDSRScore factors p ∧
  calculateDSRScore factors p
    ≤ (sHi * $0.3 + tHi * $0.3 + vHi * $0.4) * $0.7 + p * $0.06.
Proof.
  cbn zeta. unfold calculateDSRScore.
  set (spatial := 1 - _ - _ - _). set (traffic := _ * $0.6 + _).
  set (service := _ * $0.7 + _). clearbody spatial traffic service.
  intros [? ?] [? ?] [? ?]. split; qc_lra.
Qed.

Lemma spatial_unit (factors : RouteFactors) :
  0 ≤ distance factors → 0 ≤ walkingDistance factors → 0 ≤ trafficLights factors →
  let spatial :=
    1 - Math_min (distance factors / $10) 1 * $0.4
      - Math_min (walkingDistance factors / 2) 1 * $0.3
      - Math_min (trafficLights factors / $10) 1 * $0.3 in
  0 ≤ spatial ∧ spatial ≤ 1.
Proof.
  intros Hd Hw Hl. cbn zeta.
  pose proof (Math_min_le_r (distance factors / $10) 1) as Ha1.
  pose proof (Math_min_le_r (walkingDistance factors / 2) 1) as Hb1.
  pose proof (Math_min_le_r (trafficLights factors / $10) 1) as Hc1.
  assert (0 ≤ Math_min (distance factors / $10) 1) as Ha0
    by (apply Math_min_glb; [qc_lra|discriminate]).
  assert (0 ≤ Math_min (walkingDistance factors / 2) 1) as Hb0
    by (apply Math_min_glb; [qc_lra|discriminate]).
  assert (0 ≤ Math_min (trafficLights factors / $10) 1) as Hc0
    by (apply Math_min_glb; [qc_lra|discriminate]).
  set (a := Math_min (distance factors / $10) 1) in *.
  set (b := Math_min (walkingDistance factors / 2) 1) in *.
  set (c := Math_min (trafficLights factors / $10) 1) in *.
  clearbody a b c. split; qc_lra.
Qed.

Lemma service_unit (factors : RouteFactors) (lo1 lo2 : Qc) :
  lo1 ≤ rating factors / $5 → lo1 ≤ 1 →
  lo2 ≤ dailySales factors / $1000 → lo2 ≤ 1 →
  let service :=
    Math_min (rating factors / $5) 1 * $0.7 +
    Math_min (dailySales factors / $1000) 1 * $0.3 in
  lo1 * $0.7 + lo2 * $0.3 ≤ service ∧ service ≤ 1.
Proof.
  intros Hr Hr1 Hs Hs1. cbn zeta.
  pose proof (Math_min_le_r (rating factors / $5) 1) as Ha1.
  pose proof (Math_min_le_r (dailySales factors / $1000) 1) as Hb1.
  pose proof (Math_min_glb _ _ _ Hr Hr1) as Ha0.
  pose proof (Math_min_glb _ _ _ Hs Hs1) as Hb0.
  set (a := Math_min (rating factors / $5) 1) in *.
  set (b := Math_min (dailySales factors / $1000) 1) in *.
  clearbody a b. clear Hr Hs. split; qc_lra.
Qed.

(** X4. For factors with non-negative distance, walking distance, traffic
    lights, rating and daily sales, expedite and congestion ratios between 0
    and 1, and a priority between 0 and 5, the desirability score lies
    between 0 and 1. *)
Theorem calculateDSRScore_unit_interval (factors : RouteFactors) (p : Qc) :
  0 ≤ distance factors →
  0 ≤ walkingDistance factors →
  0 ≤ trafficLights factors →
  0 ≤ expediteRatio factors ∧ expediteRatio factors ≤ 1 →
  0 ≤ congestionRatio factors ∧ congestionRatio factors ≤ 1 →
  0 ≤ rating factors →
  0 ≤ dailySales factors →
  0 ≤ p ∧ p ≤ $5 →
  0 ≤ calculateDSRScore factors p ∧ calculateDSRScore factors p ≤ 1.
Proof.
  intros Hd Hw Hl [He0 He1] [Hc0 Hc1] Hr Hs [Hp0 Hp1].
  destruct (score_bounds factors p 0 1 0 1 0 1) as [Hlo Hhi].
  - apply spatial_unit; assumption.
  - split; qc_lra.
  - destruct (service_unit factors 0 0) as [Hv0 Hv1];
      [qc_lra|discriminate|qc_lra|discriminate|].
    split; [|exact Hv1]. clear Hv1. qc_lra.
  - split; qc_lra.
Qed.


Lemma score_range_of_factors (factors : RouteFactors) (p : Qc) :
  0 ≤ distance factors →
  0 ≤ walkingDistance factors →
  0 ≤ trafficLights factors →
  $0.4 ≤ expediteRatio factors ∧ expediteRatio factors < $0.8 →
  $0.1 ≤ congestionRatio factors ∧ congestionRatio factors < $0.3 →
  $3.5 ≤ rating factors ∧ rating factors < $5 →
  $100 ≤ dailySales factors →
  $0.2548 + p * $0.06 ≤ calculateDSRScore factors p ∧
  calculateDSRScore factors p < $0.6664 + p * $0.06.
Proof.
  intros Hd Hw Hl [He0 He1] [Hc0 Hc1] [Hr0 Hr1] Hs0.
  destruct (spatial_unit factors Hd Hw Hl) as [Hsp0 Hsp1].
  destruct (service_unit factors $0.7 $0.1) as [Hv0 _];
    [qc_lra|discriminate|qc_lra|discriminate|].
  pose proof (Math_min_le_l (rating factors / $5) 1) as Ha.
  pose proof (Math_min_le_r (dailySales factors / $1000) 1) as Hb.
  unfold calculateDSRScore.
  set (spatial := 1 - _ - _ - _) in *. clearbody spatial.
  split; qc_lra.
Qed.


(** ** Stochastic Route Search *)


(** ** Metrics Aggregator *)

Lemma timeLeg_eq st x g :
  timeLeg st x g =
  ((st.1 + (duration (generateRouteFactors st.2 (name x) g).1 + dwellTime x),
    name x),
   advance 10 g).
Proof. reflexivity. Qed.

Lemma forOf_timeLeg_acc l t location g :
  forOf timeLeg l (t, location) g =
  ((t + (forOf timeLeg l (0, location) g).1.1,
    (forOf timeLeg l (0, location) g).1.2),
   (forOf timeLeg l (0, location) g).2).
Proof.
  revert t location g. induction l as [|x l IH]; intros t location g; cbn [forOf].
  - rewrite !Rand_ret_eq. cbn [fst snd]. rewrite Qcplus_0_r. reflexivity.
  - rewrite !Rand_bind_eq, !timeLeg_eq. cbn [fst snd].
    rewrite IH. rewrite (IH (0 + _)). cbn [fst snd].
    do 2 f_equal. ring.
Qed.

Lemma calculateTotalTime_nil startLocation endLocation g :
  (calculateTotalTime startLocation endLocation [] g).1 =
  duration (generateRouteFactors startLocation endLocation g).1.
Proof.
  unfold calculateTotalTime. cbn [forOf]. rand_simpl. apply Qcplus_0_l.
Qed.

Lemma calculateTotalTime_cons startLocation endLocation x route g :
  (calculateTotalTime startLocation endLocation (x :: route) g).1 =
  (duration (generateRouteFactors startLocation (name x) g).1 + dwellTime x) +
  (calculateTotalTime (name x) endLocation route (advance 10 g)).1.
Proof.
  unfold calculateTotalTime. cbn [forOf].
  rewrite !Rand_bind_eq, timeLeg_eq. cbn [fst snd].
  rewrite forOf_timeLeg_acc. rewrite !Rand_ret_eq. cbn [fst snd].
  ring.
Qed.

Lemma validSource_advance k g : validSource g → validSource (advance k g).
Proof. intros Hg n. apply Hg. Qed.

Lemma legCount_cons x route : legCount (x :: route) = legCount route + 1.
Proof.
  unfold legCount. cbn [length]. apply Qc_is_canon. qc_to_q.
  change 1%Q with (inject_Z 1). rewrite <- inject_Z_plus.
  apply inject_Z_injective. lia.
Qed.

Lemma legCount_nil : legCount [] = 1.
Proof. apply Qc_is_canon. reflexivity. Qed.

Lemma calculateTotalTime_range startLocation endLocation route g :
  validSource g →
  let total := (calculateTotalTime startLocation endLocation route g).1 in
  let floor :=
    calculateTotalDistance startLocation endLocation route * $3 + totalDwell route in
  floor ≤ total ∧ total < floor + legCount route * $10.
Proof.
  cbn zeta. revert startLocation g.
  induction route as [|x route IH]; intros startLocation g Hg.
  - rewrite calculateTotalTime_nil, legCount_nil.
    destruct (factors_ranges startLocation endLocation g Hg)
      as (_ & _ & _ & _ & _ & _ & _ & [Hlo Hhi] & _).
    assert (calculateTotalDistance startLocation endLocation [] =
            calculateDistance startLocation endLocation) as ->
      by (unfold calculateTotalDistance; cbn [fold_left]; apply Qcplus_0_l).
    cbn [totalDwell foldr].
    revert Hlo Hhi. generalize (duration
      (generateRouteFactors startLocation endLocation g).1).
    generalize (calculateDistance startLocation endLocation).
    intros d t Hlo Hhi. split; qc_lra.
  - rewrite calculateTotalTime_cons, calculateTotalDistance_cons, legCount_cons.
    destruct (factors_ranges startLocation (name x) g Hg)
      as (_ & _ & _ & _ & _ & _ & _ & [Hlo Hhi] & _).
    destruct (IH (name x) (advance 10 g) (validSource_advance 10 g Hg))
      as [IHlo IHhi].
    cbn [totalDwell foldr]. fold (totalDwell route).
    revert Hlo Hhi IHlo IHhi.
    generalize (duration (generateRouteFactors startLocation (name x) g).1).
    generalize (calculateTotalTime (name x) endLocation route (advance 10 g)).1.
    generalize (calculateDistance startLocation (name x)).
    generalize (calculateTotalDistance (name x) endLocation route).
    generalize (totalDwell route). generalize (legCount route).
    generalize (dwellTime x).
    intros w n dw D d T t Hlo Hhi IHlo IHhi. split; qc_lra.
Qed.


(** ** The local engine *)

Lemma StronglySorted_sublist {A} (R : A → A → Prop) (l1 l2 : list A) :
  l1 `sublist_of` l2 → StronglySorted R l2 → StronglySorted R l1.
Proof.
  induction 1 as [|x l1 l2 Hsub IH|x l1 l2 Hsub IH]; intros Hs.
  - constructor.
  - apply StronglySorted_inv in Hs as [Hs Hall]. constructor; [auto|].
    apply Forall_forall. intros y Hy. rewrite Forall_forall in Hall.
    apply Hall. eapply sublist_subseteq; eassumption.
  - apply StronglySorted_inv in Hs as [Hs _]. auto.
Qed.

Lemma Walk_sublist limit elapsed location g l admitted dropped g' :
  Walk limit elapsed location g l admitted dropped g' →
  admitted.*1 `sublist_of` l ∧ dropped `sublist_of` l.
Proof.
  induction 1 as [| ? ? ? ? ? ? ? ? ? ? ? ? [IH1 IH2]
                  | ? ? ? ? ? ? ? ? ? ? ? ? [IH1 IH2]].
  - split; constructor.
  - split; [cbn; apply sublist_skip, IH1|apply sublist_cons, IH2].
  - split; [apply sublist_cons, IH1|apply sublist_skip, IH2].
Qed.

Lemma optimizeRouteRL_lengths startLocation endLocation scheduleItems maxTime g :
  let r := (optimizeRouteRL startLocation endLocation scheduleItems maxTime g).1 in
  (length (optimizedRoute r) + length (droppedPOIs (metrics r)) =
   length scheduleItems)%nat.
Proof.
  cbn zeta. rewrite <- length_app.
  apply Permutation_length.
  rewrite optimizeRouteRL_stages.
  cbn [fst snd optimizedRoute metrics droppedPOIs].
  rewrite pruneIfGiven_perm. apply stochasticSearch_perm.
Qed.

(** X9. Without a budget (none, or zero) nothing is dropped, no alternative
    plan is returned, and the optimized route is the route the search found,
    a rearrangement of the input. *)
Theorem optimizeRouteRL_without_budget
    (startLocation endLocation : string) (scheduleItems : list ScheduleItem)
    (maxTime : option Qc) (g : RandomSource) :
  given maxTime = None →
  let r := (optimizeRouteRL startLocation endLocation scheduleItems maxTime g).1 in
  droppedPOIs (metrics r) = [] ∧
  alternativePlan r = None ∧
  optimizedRoute r =
    bestRoute (stochasticSearch startLocation endLocation scheduleItems maxTime g).1 ∧
  optimizedRoute r ≡ₚ scheduleItems.
Proof.
  intros Hnone. cbn zeta. rewrite optimizeRouteRL_stages.
  cbn [fst snd optimizedRoute metrics droppedPOIs alternativePlan].
  unfold pruneIfGiven. rewrite Hnone. rand_simpl.
  split; [reflexivity|]. split; [|split; [reflexivity|apply stochasticSearch_perm]].
  rewrite (Permutation_length (Array_sort_perm _ _ _)).
  rewrite (Permutation_length (stochasticSearch_perm _ _ _ _ _)).
  rewrite Nat.eqb_refl. reflexivity.
Qed.

(** X10. The result carries an alternative plan exactly when at least one
    destination was dropped, and a plan that is carried is a rearrangement of
    the whole input, the dropped destinations included. *)
Theorem alternativePlan_iff_dropped
    (startLocation endLocation : string) (scheduleItems : list ScheduleItem)
    (maxTime : option Qc) (g : RandomSource) :
  let r := (optimizeRouteRL startLocation endLocation scheduleItems maxTime g).1 in
  (alternativePlan r = None ↔ droppedPOIs (metrics r) = []) ∧
  (∀ plan, alternativePlan r = Some plan → plan ≡ₚ scheduleItems).
Proof.
  cbn zeta.
  pose proof (optimizeRouteRL_lengths startLocation endLocation scheduleItems
                maxTime g) as Hlen.
  cbn zeta in Hlen. revert Hlen. rewrite optimizeRouteRL_stages.
  cbn [fst snd optimizedRoute metrics droppedPOIs alternativePlan].
  set (pruned := pruneIfGiven _ _ _ _).
  set (alt := Array_sort byTypeThenPriority scheduleItems pruned.2).
  intros Hlen.
  assert (length alt.1 = length scheduleItems) as Halt
    by apply Permutation_length, Array_sort_perm.
  split.
  - destruct (Nat.eqb_spec (length alt.1) (length pruned.1.1)) as [E|E].
    + split; [intros _|reflexivity].
      apply length_zero_iff_nil. lia.
    + split; [discriminate|]. intros Hnil. rewrite Hnil in Hlen. cbn in Hlen. lia.
  - intros plan. destruct (Nat.eqb _ _); [discriminate|].
    intros [= <-]. apply Array_sort_perm.
Qed.

Lemma optimizeRouteRL_budget_priority_order_aux
    (startLocation endLocation : string) (scheduleItems : list ScheduleItem)
    (maxTime : option Qc) (m : Qc) (g : RandomSource) :
  given maxTime = Some m →
  let r := (optimizeRouteRL startLocation endLocation scheduleItems maxTime g).1 in
  let search := stochasticSearch startLocation endLocation scheduleItems maxTime g in
  let sortedByPriority := (Array_sort byPriority (bestRoute search.1) search.2).1 in
  optimizedRoute r `sublist_of` sortedByPriority ∧
  droppedPOIs (metrics r) `sublist_of` sortedByPriority.
Proof.
  intros Hm r search sortedByPriority.
  destruct (optimizeRouteRL_prunes startLocation endLocation scheduleItems
              maxTime m g Hm) as [Hopt Hdrop].
  fold r in Hopt, Hdrop. fold search in Hopt, Hdrop.
  destruct (prune_walk startLocation (bestRoute search.1) m search.2)
    as (admitted & Hw & Hv & _).
  apply Walk_sublist in Hw as [Hs1 Hs2].
  rewrite <- Hv in Hs1. rewrite <- Hopt in Hs1. rewrite <- Hdrop in Hs2.
  auto.
Qed.

(** X11. With a budget given, the optimized route and the dropped list are
    both in priority-descending order: each is a sub-sequence of the route the
    search found, re-sorted by priority. *)
Theorem optimizeRouteRL_budget_priority_order
    (startLocation endLocation : string) (scheduleItems : list ScheduleItem)
    (maxTime : option Qc) (m : Qc) (g : RandomSource) :
  given maxTime = Some m →
  let r := (optimizeRouteRL startLocation endLocation scheduleItems maxTime g).1 in
  let search := stochasticSearch startLocation endLocation scheduleItems maxTime g in
  let sortedByPriority := (Array_sort byPriority (bestRoute search.1) search.2).1 in
  optimizedRoute r `sublist_of` sortedByPriority ∧
  droppedPOIs (metrics r) `sublist_of` sortedByPriority ∧
  priorityDescending (optimizedRoute r) ∧
  priorityDescending (droppedPOIs (metrics r)).
Proof.
  intros Hm r search sortedByPriority.
  destruct (optimizeRouteRL_prunes startLocation endLocation scheduleItems
              maxTime m g Hm) as [Hopt Hdrop].
  fold r in Hopt, Hdrop. fold search in Hopt, Hdrop.
  destruct (prune_walk startLocation (bestRoute search.1) m search.2)
    as (admitted & Hw & Hv & _).
  apply Walk_sublist in Hw as [Hs1 Hs2].
  rewrite <- Hv in Hs1. rewrite <- Hopt in Hs1. rewrite <- Hdrop in Hs2.
  fold sortedByPriority in Hs1, Hs2.
  assert (priorityDescending sortedByPriority) as Hsorted
    by apply Array_sort_byPriority_sorted.
  repeat split; try assumption;
    eapply StronglySorted_sublist; eassumption.
Qed.

Lemma prune_nil startLocation maxTime g :
  prune startLocation [] maxTime g =
  ({| currentTime := 0; currentLocation := startLocation;
      validRoute := []; dropped := [] |}, g).
Proof. reflexivity. Qed.


End MoreProperties.

(** ** Sorting by a numeric key, descending *)

Section SortByKey.
Context {A : Type} (key : A → Qc) (comparefn : A → A → Rand Qc).
Hypothesis comparefn_eq : ∀ a b g, comparefn a b g = (key b - key a, g).

Lemma Array_insert_key_state x l g : (Array_insert comparefn x l g).2 = g.
Proof.
  induction l as [|y l IH]; cbn [Array_insert]; [reflexivity|].
  rand_simpl. rewrite !comparefn_eq. cbn [fst snd].
  destruct (Qcltb 0 _); rand_simpl; auto.
Qed.

Lemma Array_sort_key_state l g : (Array_sort comparefn l g).2 = g.
Proof.
  induction l as [|x l IH]; cbn [Array_sort]; [reflexivity|].
  rand_simpl. rewrite Array_insert_key_state. exact IH.
Qed.

Lemma Array_insert_key_sorted x l g :
  StronglySorted (λ a b, key b ≤ key a) l →
  StronglySorted (λ a b, key b ≤ key a) (Array_insert comparefn x l g).1.
Proof.
  induction 1 as [|y l Hl IH Hy]; cbn [Array_insert].
  - repeat constructor.
  - rand_simpl. rewrite !comparefn_eq. cbn [fst snd].
    destruct (Qcltb 0 _) eqn:E; rand_simpl.
    + constructor; [exact IH|].
      rewrite Array_insert_perm. constructor; [|exact Hy].
      apply Qclt_le_weak, Qclt_0_minus, Qcltb_lt, E.
    + assert (key y ≤ key x) as Hxy.
      { apply Qcle_ngt. intros Hlt. apply Qclt_0_minus in Hlt.
        apply Qcltb_lt in Hlt. rewrite Hlt in E. discriminate. }
      constructor; [constructor; assumption|].
      constructor; [exact Hxy|].
      eapply Forall_impl; [exact Hy|]. intros z Hz. cbn in Hz.
      eapply Qcle_trans; eassumption.
Qed.

Lemma Array_sort_key_sorted l g :
  StronglySorted (λ a b, key b ≤ key a) (Array_sort comparefn l g).1.
Proof.
  revert g. induction l as [|x l IH]; intros g; cbn [Array_sort].
  - constructor.
  - rand_simpl. apply Array_insert_key_sorted, IH.
Qed.

Lemma Array_insert_key_front x l g :
  Forall (λ y, key y ≤ key x) l → (Array_insert comparefn x l g).1 = x :: l.
Proof.
  destruct 1 as [|y l Hy Hl]; cbn [Array_insert]; [reflexivity|].
  rand_simpl. rewrite comparefn_eq. cbn [fst snd].
  destruct (Qcltb 0 _) eqn:E; [|reflexivity].
  apply Qcltb_lt in E. apply (proj1 (Qclt_0_minus _ _)) in E.
  exfalso. eapply Qcle_not_lt; eassumption.
Qed.

Lemma Array_sort_key_fixed l g :
  StronglySorted (λ a b, key b ≤ key a) l → (Array_sort comparefn l g).1 = l.
Proof.
  induction 1 as [|x l Hl IH Hx]; cbn [Array_sort]; [reflexivity|].
  rand_simpl. rewrite Array_sort_key_state, IH.
  apply Array_insert_key_front, Hx.
Qed.

End SortByKey.

Lemma byScore_eq a b g : byScore a b g = (POI.dsrScore b - POI.dsrScore a, g).
Proof. reflexivity. Qed.

(** ** POI Recommendation Ranker *)

Lemma advance_0 g : advance 0 g = g.
Proof. destruct g. reflexivity. Qed.

Lemma poiDatabase_ratings :
  Forall (λ entry, $4 ≤ Catalog.baseRating entry ∧ Catalog.baseRating entry ≤ $4.8)
         poiDatabase.
Proof. repeat constructor; discriminate. Qed.

Section MoreCollaborators.
Context `{Host}.

Lemma recommend_state startLocation entry index g :
  (recommend startLocation entry index g).2 = advance 12 g.
Proof. reflexivity. Qed.

Lemma Array_map_recommend_state startLocation l index g :
  (Array_map (recommend startLocation) l index g).2 = advance (12 * length l) g.
Proof.
  revert index g. induction l as [|x l IH]; intros index g; cbn [Array_map].
  - rewrite Rand_ret_eq. symmetry. apply advance_0.
  - rand_simpl. rewrite IH, recommend_state, advance_advance.
    f_equal. cbn [length]. lia.
Qed.

Lemma Array_map_recommend_lookup startLocation l index g k entry :
  l !! k = Some entry →
  (Array_map (recommend startLocation) l index g).1 !! k =
  Some (recommend startLocation entry (index + k) (advance (12 * k) g)).1.
Proof.
  revert index g k. induction l as [|x l IH]; intros index g k Hk; [discriminate|].
  cbn [Array_map]. rand_simpl. destruct k as [|k].
  - injection Hk as ->. cbn. rewrite Nat.add_0_r, advance_0. reflexivity.
  - cbn in Hk. cbn [lookup list_lookup]. rewrite (IH _ _ _ Hk).
    rewrite recommend_state, advance_advance.
    replace (S index + k)%nat with (index + S k)%nat by lia.
    replace (12 * k + 12)%nat with (12 * S k)%nat by lia. reflexivity.
Qed.

Lemma Array_map_recommend_length startLocation l index g :
  length (Array_map (recommend startLocation) l index g).1 = length l.
Proof.
  revert index g. induction l as [|x l IH]; intros index g; cbn [Array_map].
  - reflexivity.
  - rand_simpl. cbn [length]. rewrite IH. reflexivity.
Qed.

Lemma Array_map_recommend_elem startLocation l index g poi :
  poi ∈ (Array_map (recommend startLocation) l index g).1 →
  ∃ k entry, l !! k = Some entry ∧
    poi = (recommend startLocation entry (index + k) (advance (12 * k) g)).1.
Proof.
  intros [k Hk]%list_elem_of_lookup.
  assert (k < length l)%nat as Hlt.
  { rewrite <- (Array_map_recommend_length startLocation l index g).
    eapply lookup_lt_Some, Hk. }
  destruct (lookup_lt_is_Some_2 l k Hlt) as [entry He].
  exists k, entry. split; [exact He|].
  rewrite (Array_map_recommend_lookup _ _ _ _ _ _ He) in Hk. congruence.
Qed.

Lemma recommendations_elem startLocation g poi :
  poi ∈ (Array_map (recommend startLocation) poiDatabase 0 g).1 →
  ∃ k entry, poiDatabase !! k = Some entry ∧
    poi = (recommend startLocation entry k (advance (12 * k) g)).1.
Proof. apply Array_map_recommend_elem. Qed.

Lemma recommend_fields startLocation entry index g :
  let poi := (recommend startLocation entry index g).1 in
  POI.id poi = "poi-" +:+ pretty index ∧
  POI.name poi = Catalog.name entry ∧
  POI.type poi = Catalog.type entry ∧
  POI.description poi =
    Catalog.type entry +:+ " with excellent service and convenient location" ∧
  POI.distance poi = calculateDistance startLocation (Catalog.name entry) ∧
  POI.dsrScore poi =
    calculateDSRScore
      (generateRouteFactors startLocation (Catalog.name entry) g).1 $3.
Proof. repeat split. Qed.

Lemma Array_map_recommend_names startLocation l index g :
  POI.name <$> (Array_map (recommend startLocation) l index g).1 =
  Catalog.name <$> l.
Proof.
  revert index g. induction l as [|x l IH]; intros index g; cbn [Array_map].
  - reflexivity.
  - rand_simpl. cbn [fmap list_fmap]. f_equal. apply IH.
Qed.

Lemma generatePOIRecommendations_fst currentRoute startLocation endLocation g :
  (generatePOIRecommendations currentRoute startLocation endLocation g).1 =
  (Array_sort byScore (Array_map (recommend startLocation) poiDatabase 0 g).1
     (Array_map (recommend startLocation) poiDatabase 0 g).2).1.
Proof. unfold generatePOIRecommendations. rewrite Rand_bind_eq. reflexivity. Qed.

Lemma generatePOIRecommendations_snd currentRoute startLocation endLocation g :
  (generatePOIRecommendations currentRoute startLocation endLocation g).2 =
  advance 120 g.
Proof.
  unfold generatePOIRecommendations. rewrite Rand_bind_eq.
  rewrite (Array_sort_key_state POI.dsrScore byScore byScore_eq).
  rewrite Array_map_recommend_state. reflexivity.
Qed.

(** X13. The ranker returns one recommendation for each of the ten catalogue
    entries and nothing else: each carries the id ["poi-" + index] of its
    entry, the entry's name and type, the description made from the type, and
    the distance from the start to the entry.  The current route and the end
    location play no part, and the call takes 120 draws. *)
Theorem generatePOIRecommendations_catalogue
    (currentRoute : list ScheduleItem) (startLocation endLocation : string)
    (g : RandomSource) :
  let run := generatePOIRecommendations currentRoute startLocation endLocation g in
  length run.1 = 10%nat ∧
  POI.name <$> run.1 ≡ₚ Catalog.name <$> poiDatabase ∧
  (∀ poi, poi ∈ run.1 →
     ∃ index entry, poiDatabase !! index = Some entry ∧
       POI.id poi = "poi-" +:+ pretty index ∧
       POI.name poi = Catalog.name entry ∧
       POI.type poi = Catalog.type entry ∧
       POI.description poi =
         Catalog.type entry +:+ " with excellent service and convenient location" ∧
       POI.distance poi = calculateDistance startLocation (Catalog.name entry)) ∧
  run.2 = advance 120 g ∧
  (∀ otherRoute otherEnd,
     generatePOIRecommendations otherRoute startLocation otherEnd g = run).
Proof.
  cbn zeta. split; [|split; [|split; [|split]]].
  - rewrite generatePOIRecommendations_fst.
    rewrite (Permutation_length (Array_sort_perm _ _ _)).
    rewrite Array_map_recommend_length. reflexivity.
  - rewrite generatePOIRecommendations_fst.
    rewrite Array_sort_perm. rewrite Array_map_recommend_names. reflexivity.
  - intros poi. rewrite generatePOIRecommendations_fst.
    rewrite Array_sort_perm.
    intros (k & entry & Hk & ->)%recommendations_elem.
    exists k, entry. split; [exact Hk|].
    destruct (recommend_fields startLocation entry k (advance (12 * k) g))
      as (? & ? & ? & ? & ? & _). auto.
  - apply generatePOIRecommendations_snd.
  - intros otherRoute otherEnd. apply injective_projections.
    + rewrite !generatePOIRecommendations_fst. reflexivity.
    + rewrite !generatePOIRecommendations_snd. reflexivity.
Qed.

Lemma recommend_ranges startLocation entry index g :
  validSource g →
  let poi := (recommend startLocation entry index g).1 in
  (Catalog.baseRating entry - $0.2 ≤ POI.rating poi ∧
   POI.rating poi < Catalog.baseRating entry + $0.2) ∧
  (POI.distance poi * $3 ≤ POI.estimatedTime poi ∧
   POI.estimatedTime poi < POI.distance poi * $3 + $10) ∧
  (POI.priceRange poi = "₹" ∨ POI.priceRange poi = "₹₹" ∨
   POI.priceRange poi = "₹₹₹") ∧
  (POI.priceRange poi = "₹" → POI.distance poi * $15 < $100) ∧
  (POI.priceRange poi = "₹₹₹" → $250 < POI.distance poi * $15).
Proof.
  intros Hg. cbn zeta.
  destruct (factors_ranges startLocation (Catalog.name entry) g Hg)
    as (Hdist & _ & _ & _ & _ & _ & _ & Hdur & Hcost & _).
  cbn zeta in Hdur, Hcost.
  unfold recommend. rewrite !Rand_bind_eq, Rand_ret_eq.
  cbn [fst snd POI.rating POI.distance POI.estimatedTime POI.priceRange].
  set (factors := (generateRouteFactors startLocation (Catalog.name entry) g).1) in *.
  rewrite <- Hdist in Hdur, Hcost.
  destruct (draw_bounds g (10 + next g)%nat Hg) as [Hr0 Hr1].
  change (Math_random (generateRouteFactors startLocation (Catalog.name entry) g).2).1
    with (draws g (10 + next g)%nat).
  split; [|split; [exact Hdur|]].
  { revert Hr0 Hr1. generalize (draws g (10 + next g)%nat).
    generalize (Catalog.baseRating entry). intros b r Hr0 Hr1. split; qc_lra. }
  destruct Hcost as [Hc0 Hc1].
  destruct (Qcltb (cost factors) $100) eqn:E1;
    [|destruct (Qcltb (cost factors) $300) eqn:E2].
  - split; [auto|]. split; [|discriminate]. intros _.
    apply Qcltb_lt in E1. eapply Qcle_lt_trans; eassumption.
  - split; [auto|]. split; discriminate.
  - split; [auto|]. split; [discriminate|]. intros _.
    apply Qcltb_ge in E2. revert Hc1 E2.
    generalize (cost factors). generalize (distance factors).
    intros d c Hc1 E2. qc_lra.
Qed.

(** X14. The recommendations come in descending order of their score, and
    each score is the desirability score, at priority 3, of a leg from the
    start to the entry. *)
Theorem generatePOIRecommendations_ranked
    (currentRoute : list ScheduleItem) (startLocation endLocation : string)
    (g : RandomSource) :
  let recommendations :=
    (generatePOIRecommendations currentRoute startLocation endLocation g).1 in
  scoreDescending recommendations ∧
  (∀ poi, poi ∈ recommendations →
     ∃ index entry, poiDatabase !! index = Some entry ∧
       POI.name poi = Catalog.name entry ∧
       POI.dsrScore poi =
         calculateDSRScore
           (generateRouteFactors startLocation (Catalog.name entry)
              (advance (12 * index) g)).1 $3).
Proof.
  cbn zeta. rewrite generatePOIRecommendations_fst. split.
  - apply (Array_sort_key_sorted POI.dsrScore byScore byScore_eq).
  - intros poi Hpoi. rewrite Array_sort_perm in Hpoi.
    apply recommendations_elem in Hpoi as (k & entry & Hk & ->).
    exists k, entry. split; [exact Hk|].
    destruct (recommend_fields startLocation entry k (advance (12 * k) g))
      as (_ & ? & _ & _ & _ & ?). auto.
Qed.


(** ** The recommendations panel *)

Lemma matchesFilter_type selectedFilter poi :
  selectedFilter ≠ "onRoute" → selectedFilter ≠ "highRated" →
  selectedFilter ≠ "all" →
  matchesFilter selectedFilter poi = true ↔ POI.type poi = selectedFilter.
Proof.
  intros H1 H2 H3. unfold matchesFilter.
  destruct (String.eqb_spec selectedFilter "onRoute"); [contradiction|].
  destruct (String.eqb_spec selectedFilter "highRated"); [contradiction|].
  destruct (String.eqb_spec selectedFilter "all"); [contradiction|].
  apply String.eqb_eq.
Qed.

Lemma filteredRecommendations_all l : filteredRecommendations "all" l = l.
Proof.
  unfold filteredRecommendations. induction l as [|x l IH]; [reflexivity|].
  rewrite filter_cons, decide_True by reflexivity. f_equal. exact IH.
Qed.

Lemma Array_map_recommend_filter startLocation selectedFilter l index g :
  selectedFilter ≠ "onRoute" → selectedFilter ≠ "highRated" →
  selectedFilter ≠ "all" →
  POI.name <$> filteredRecommendations selectedFilter
                 (Array_map (recommend startLocation) l index g).1 =
  Catalog.name <$> filter (λ entry, Catalog.type entry = selectedFilter) l.
Proof.
  intros H1 H2 H3. unfold filteredRecommendations.
  revert index g. induction l as [|x l IH]; intros index g; cbn [Array_map].
  - reflexivity.
  - rand_simpl. rewrite !filter_cons.
    destruct (decide (Catalog.type x = selectedFilter)) as [Hx|Hx].
    + rewrite decide_True
        by (apply (matchesFilter_type _ _ H1 H2 H3); exact Hx).
      cbn [fmap list_fmap]. f_equal. apply IH.
    + rewrite decide_False
        by (rewrite (matchesFilter_type _ _ H1 H2 H3); exact Hx).
      apply IH.
Qed.

(** X16. Whatever the filter, the panel shows a sub-sequence of the
    recommendations, so the local recommendations stay in descending order of
    score; the filter "all" shows all of them; and a filter that names a type
    shows exactly the catalogue's entries of that type. *)
Theorem filteredRecommendations_of_ranker
    (selectedFilter : string) (currentRoute : list ScheduleItem)
    (startLocation endLocation : string) (g : RandomSource) :
  let recommendations :=
    (generatePOIRecommendations currentRoute startLocation endLocation g).1 in
  let shown := filteredRecommendations selectedFilter recommendations in
  shown `sublist_of` recommendations ∧
  scoreDescending shown ∧
  (selectedFilter = "all" → shown = recommendations) ∧
  (selectedFilter ≠ "onRoute" → selectedFilter ≠ "highRated" →
   selectedFilter ≠ "all" →
   POI.name <$> shown ≡ₚ
   Catalog.name <$> filter (λ entry, Catalog.type entry = selectedFilter)
                      poiDatabase).
Proof.
  cbn zeta. rewrite generatePOIRecommendations_fst.
  set (mapped := Array_map (recommend startLocation) poiDatabase 0 g).
  split; [apply sublist_filter|]. split; [|split].
  - eapply StronglySorted_sublist; [apply sublist_filter|].
    apply (Array_sort_key_sorted POI.dsrScore byScore byScore_eq).
  - intros ->. apply filteredRecommendations_all.
  - intros H1 H2 H3.
    rewrite <- (Array_map_recommend_filter startLocation selectedFilter
                  poiDatabase 0 g H1 H2 H3).
    unfold filteredRecommendations. fold mapped.
    rewrite (Array_sort_perm byScore mapped.1 mapped.2). reflexivity.
Qed.

(** ** Backend integration *)

(** X17. The class [APIClient] declares no [optimizeRoute] method, so the call
    to the backend throws before any request is made: whatever [useBackend],
    [optimizeRouteWithBackend] returns the result of the local engine. *)
Theorem optimizeRouteWithBackend_is_local
    (remote : RouteOptimizationRequest.t → Outcome OptimizationResult)
    (startLocation endLocation : string) (scheduleItems : list ScheduleItem)
    (maxTime : option Qc) (useBackend : option bool) (g : RandomSource) :
  apiClient_member "optimizeRoute" remote = None ∧
  optimizeRouteWithBackend remote startLocation endLocation scheduleItems
    maxTime useBackend g =
  optimizeRouteRL startLocation endLocation scheduleItems maxTime g.
Proof.
  split; [reflexivity|]. unfold optimizeRouteWithBackend.
  destruct (default true useBackend); reflexivity.
Qed.

(** X18. The class [APIClient] declares no [getPOIRecommendations] method
    either: whatever [useBackend], [getPOIRecommendationsWithBackend] returns
    the local ranker's recommendations. *)
Theorem getPOIRecommendationsWithBackend_is_local
    (remote : POIRecommendationsRequest.t → Outcome POIRecommendationsResponse.t)
    (currentRoute : list ScheduleItem) (startLocation endLocation : string)
    (useBackend : option bool) (g : RandomSource) :
  apiClient_member "getPOIRecommendations" remote = None ∧
  getPOIRecommendationsWithBackend remote currentRoute startLocation endLocation
    useBackend g =
  generatePOIRecommendations currentRoute startLocation endLocation g.
Proof.
  split; [reflexivity|]. unfold getPOIRecommendationsWithBackend.
  destruct (default true useBackend); reflexivity.
Qed.

End MoreCollaborators.

(** ** The API client *)

(** X19. [optimizeRouteLocal] returns the input unchanged as original route
    and, as optimized route, the input in priority-descending order with ties
    in input order; it draws no random value, reports the same four metrics
    for every input, and applied to its own optimized route returns it
    unchanged. *)
Theorem optimizeRouteLocal_sorts_by_priority
    (startLocation endLocation : string) (scheduleItems : list ScheduleItem)
    (g : RandomSource) :
  let run := optimizeRouteLocal startLocation endLocation scheduleItems g in
  let optimized := LocalResult.optimizedRoute run.1 in
  run.2 = g ∧
  LocalResult.originalRoute run.1 = scheduleItems ∧
  optimized ≡ₚ scheduleItems ∧
  priorityDescending optimized ∧
  tiesKeepOrder scheduleItems optimized ∧
  LocalResult.optimizedRoute
    (optimizeRouteLocal startLocation endLocation optimized g).1 = optimized ∧
  LocalResult.metrics_ run.1 =
    {| LocalResult.totalDistance := $15000; LocalResult.totalTime := $3600;
       LocalResult.timeSaved := $600; LocalResult.costSaved := $150 |}.
Proof.
  cbn zeta. unfold optimizeRouteLocal. rewrite !Rand_bind_eq, !Rand_ret_eq.
  rewrite !pair_fst, !pair_snd.
  cbn [LocalResult.originalRoute LocalResult.optimizedRoute LocalResult.metrics_].
  split; [apply Array_sort_byPriority_state|]. split; [reflexivity|].
  split; [apply Array_sort_perm|].
  split; [apply Array_sort_byPriority_sorted|].
  split; [apply Array_sort_byPriority_ties|].
  split; [|reflexivity].
  apply (Array_sort_key_fixed priority byPriority byPriority_eq).
  apply Array_sort_byPriority_sorted.
Qed.


(** ** The search does not decide the order under a budget *)

Lemma sorted_perm_unique {A} (key : A → Qc) (l1 l2 : list A) :
  l1 ≡ₚ l2 →
  StronglySorted (λ a b, key b ≤ key a) l1 →
  StronglySorted (λ a b, key b ≤ key a) l2 →
  NoDup (key <$> l1) →
  l1 = l2.
Proof.
  revert l2. induction l1 as [|x l1 IH]; intros l2 Hperm Hs1 Hs2 Hnd.
  - apply Permutation_nil_l. exact Hperm.
  - destruct l2 as [|y l2].
    { apply Permutation_nil_r in Hperm. discriminate. }
    apply StronglySorted_inv in Hs1 as [Hs1 Hx].
    apply StronglySorted_inv in Hs2 as [Hs2 Hy].
    rewrite Forall_forall in Hx, Hy.
    assert (x = y) as ->.
    { destruct (decide_rel (=) (key x) (key y)) as [Hk|Hk].
      - assert (y ∈ x :: l1) as Hyin by (rewrite Hperm; left).
        apply elem_of_cons in Hyin as [->|Hyin]; [reflexivity|].
        rewrite fmap_cons in Hnd. apply NoDup_cons in Hnd as [Hnotin _].
        exfalso. apply Hnotin. rewrite Hk. apply list_elem_of_fmap. eauto.
      - exfalso. apply Hk. apply Qcle_antisym.
        + assert (x ∈ y :: l2) as Hxin by (rewrite <- Hperm; left).
          apply elem_of_cons in Hxin as [->|Hxin]; [apply Qcle_refl|].
          apply Hy, Hxin.
        + assert (y ∈ x :: l1) as Hyin by (rewrite Hperm; left).
          apply elem_of_cons in Hyin as [->|Hyin]; [apply Qcle_refl|].
          apply Hx, Hyin. }
    f_equal. apply IH; try assumption.
    + eapply Permutation_cons_inv, Hperm.
    + rewrite fmap_cons in Hnd. apply NoDup_cons in Hnd as [_ Hnd]. exact Hnd.
Qed.

Section OrderUnderBudget.
Context `{Host}.

(** X21. With a budget given and destinations of pairwise distinct
    priorities, the route the search found has no influence on the order of
    the result: the optimized route and the dropped list are sub-sequences of
    the input re-sorted by priority. *)
Theorem optimizeRouteRL_budget_order_is_priority
    (startLocation endLocation : string) (scheduleItems : list ScheduleItem)
    (maxTime : option Qc) (m : Qc) (g : RandomSource) :
  given maxTime = Some m →
  NoDup (priority <$> scheduleItems) →
  let r := (optimizeRouteRL startLocation endLocation scheduleItems maxTime g).1 in
  let inputByPriority := (Array_sort byPriority scheduleItems g).1 in
  optimizedRoute r `sublist_of` inputByPriority ∧
  droppedPOIs (metrics r) `sublist_of` inputByPriority.
Proof.
  intros Hm Hnd r inputByPriority.
  destruct (optimizeRouteRL_budget_priority_order_aux startLocation endLocation
              scheduleItems maxTime m g Hm) as (Hs1 & Hs2).
  fold r in Hs1, Hs2.
  set (search := stochasticSearch startLocation endLocation scheduleItems maxTime g)
    in *.
  assert ((Array_sort byPriority (bestRoute search.1) search.2).1 = inputByPriority)
    as Heq.
  { unfold inputByPriority. apply (sorted_perm_unique priority).
    - rewrite !Array_sort_perm. apply stochasticSearch_perm.
    - apply Array_sort_byPriority_sorted.
    - apply Array_sort_byPriority_sorted.
    - rewrite Array_sort_perm. unfold search.
      rewrite (stochasticSearch_perm startLocation endLocation scheduleItems
                 maxTime g). exact Hnd. }
  rewrite Heq in Hs1, Hs2. auto.
Qed.

(** ** Distances along a route *)

Lemma calculateTotalDistance_nil startLocation endLocation :
  calculateTotalDistance startLocation endLocation [] =
  calculateDistance startLocation endLocation.
Proof. unfold calculateTotalDistance. cbn [fold_left]. apply Qcplus_0_l. Qed.

Lemma calculateTotalDistance_app startLocation endLocation route1 x route2 :
  calculateTotalDistance startLocation endLocation (route1 ++ x :: route2) =
  calculateTotalDistance startLocation (name x) route1 +
  calculateTotalDistance (name x) endLocation route2.
Proof.
  revert startLocation. induction route1 as [|y route1 IH]; intros startLocation.
  - cbn [app]. rewrite calculateTotalDistance_cons, calculateTotalDistance_nil.
    reflexivity.
  - cbn [app]. rewrite !calculateTotalDistance_cons, IH. ring.
Qed.


(** ** The metrics the engine reports agree with each other *)

Lemma Draws_byPriority a b : Draws (byPriority a b).
Proof. apply Draws_ret. Qed.

Lemma Draws_byTypeThenPriority a b : Draws (byTypeThenPriority a b).
Proof. unfold byTypeThenPriority. destruct (String.eqb _ _); apply Draws_ret. Qed.

Lemma Draws_pruneIfGiven startLocation bestRoute maxTime :
  Draws (pruneIfGiven startLocation bestRoute maxTime).
Proof.
  unfold pruneIfGiven. destruct (given maxTime) as [m|]; [|apply Draws_ret].
  apply Draws_bind; [|intros st; apply Draws_ret].
  unfold prune. apply Draws_bind.
  - apply Draws_sort, Draws_byPriority.
  - intros sorted. apply Draws_forOf. intros st x. apply Draws_pruneStep.
Qed.

Lemma Draws_calculateTotalTime startLocation endLocation route :
  Draws (calculateTotalTime startLocation endLocation route).
Proof.
  intros g. rewrite calculateTotalTime_state. split; [reflexivity|]. cbn. lia.
Qed.


End OrderUnderBudget.

(** ** The further theorems at concrete inputs *)

Lemma validSource_half : validSource (constantSource $0.5).
Proof. apply validSource_constant; [discriminate|reflexivity]. Qed.

(** Home to Office and back on a host with [sin x = x]. *)
Lemma calculateDistance_symmetric_witness :
  (∀ x, Math_sin (Host := sampleHost) (- x) = - Math_sin (Host := sampleHost) x) ∧
  calculateDistance (H:=sampleHost) "Home" "Office" =
  calculateDistance (H:=sampleHost) "Office" "Home".
Proof.
  assert (∀ x, Math_sin (Host := sampleHost) (- x) =
               - Math_sin (Host := sampleHost) x) as Hodd by reflexivity.
  split; [exact Hodd|].
  apply (calculateDistance_symmetric (H:=sampleHost)), Hodd.
Defined.



(** The score of the five-kilometre leg at priority 3. *)
Lemma calculateDSRScore_unit_interval_witness :
  0 ≤ calculateDSRScore sampleFactors $3 ∧
  calculateDSRScore sampleFactors $3 ≤ 1.
Proof.
  apply (calculateDSRScore_unit_interval sampleFactors $3);
    try discriminate; split; discriminate.
Defined.





(** A budget of zero counts as no budget. *)
Lemma optimizeRouteRL_without_budget_witness :
  given (Some 0) = None ∧
  droppedPOIs (metrics (optimizeRouteRL (H:=sampleHost) "Home" "Home"
                          [destinationA; destinationB] (Some 0)
                          scrambledSource).1) = [].
Proof.
  assert (given (Some 0) = None) as Hg by reflexivity.
  split; [exact Hg|].
  destruct (optimizeRouteRL_without_budget (H:=sampleHost) "Home" "Home"
              [destinationA; destinationB] (Some 0) scrambledSource Hg)
    as [Hd _].
  exact Hd.
Defined.

(** The run in which B is dropped: the plan it carries rearranges the input. *)
Lemma alternativePlan_iff_dropped_witness :
  let r := (optimizeRouteRL (H:=sampleHost) "Home" "Home"
              [destinationA; destinationB] (Some $100) scrambledSource).1 in
  alternativePlan r = Some [destinationA; destinationB] ∧
  [destinationA; destinationB] ≡ₚ [destinationA; destinationB].
Proof.
  cbn zeta.
  assert (alternativePlan
            (optimizeRouteRL (H:=sampleHost) "Home" "Home"
               [destinationA; destinationB] (Some $100) scrambledSource).1 =
          Some [destinationA; destinationB]) as Hplan
    by (vm_compute; reflexivity).
  split; [exact Hplan|].
  destruct (alternativePlan_iff_dropped (H:=sampleHost) "Home" "Home"
              [destinationA; destinationB] (Some $100) scrambledSource)
    as [_ Hperm].
  exact (Hperm _ Hplan).
Defined.

(** With a budget of 100 minutes the optimized route is priority-descending. *)
Lemma optimizeRouteRL_budget_priority_order_witness :
  given (Some $100) = Some $100 ∧
  priorityDescending
    (optimizedRoute (optimizeRouteRL (H:=sampleHost) "Home" "Home"
                       [destinationB; destinationA] (Some $100)
                       scrambledSource).1).
Proof.
  assert (given (Some $100) = Some $100) as Hg by reflexivity.
  split; [exact Hg|].
  destruct (optimizeRouteRL_budget_priority_order (H:=sampleHost) "Home" "Home"
              [destinationB; destinationA] (Some $100) $100 scrambledSource Hg)
    as (_ & _ & Hsorted & _).
  exact Hsorted.
Defined.

(** A recommendation of a run and the catalogue entry it comes from. *)
Lemma generatePOIRecommendations_catalogue_witness :
  ∃ poi index entry,
    poi ∈ (generatePOIRecommendations (H:=sampleHost) [] "Home" "Home"
             (constantSource $0.5)).1 ∧
    poiDatabase !! index = Some entry ∧
    POI.name poi = Catalog.name entry.
Proof.
  destruct (generatePOIRecommendations_catalogue (H:=sampleHost) [] "Home" "Home"
              (constantSource $0.5)) as (Hlen & _ & Hall & _).
  destruct (generatePOIRecommendations (H:=sampleHost) [] "Home" "Home"
              (constantSource $0.5)).1 as [|poi recommendations];
    [discriminate Hlen|].
  destruct (Hall poi (list_elem_of_here _ _))
    as (index & entry & Hentry & _ & Hname & _).
  exists poi, index, entry. split; [apply list_elem_of_here|]. split; assumption.
Defined.

(** The score of a recommendation of a run. *)
Lemma generatePOIRecommendations_ranked_witness :
  ∃ poi index entry,
    poi ∈ (generatePOIRecommendations (H:=sampleHost) [] "Home" "Home"
             (constantSource $0.5)).1 ∧
    poiDatabase !! index = Some entry ∧
    POI.dsrScore poi =
      calculateDSRScore
        (generateRouteFactors (H:=sampleHost) "Home" (Catalog.name entry)
           (advance (12 * index) (constantSource $0.5))).1 $3.
Proof.
  destruct (generatePOIRecommendations_catalogue_witness)
    as (poi & _ & _ & Hpoi & _).
  destruct (generatePOIRecommendations_ranked (H:=sampleHost) [] "Home" "Home"
              (constantSource $0.5)) as [_ Hall].
  destruct (Hall poi Hpoi) as (index & entry & Hentry & _ & Hscore).
  exists poi, index, entry. split; [exact Hpoi|]. split; assumption.
Defined.


(** The filter "Temple" shows the one temple of the catalogue. *)
Lemma filteredRecommendations_of_ranker_witness :
  POI.name <$> filteredRecommendations "Temple"
                 (generatePOIRecommendations (H:=sampleHost) [] "Home" "Home"
                    (constantSource $0.5)).1 ≡ₚ
  ["Sri Lakshmi Temple"].
Proof.
  destruct (filteredRecommendations_of_ranker (H:=sampleHost) "Temple" [] "Home"
              "Home" (constantSource $0.5)) as (_ & _ & _ & Htype).
  apply Htype; discriminate.
Defined.


Lemma NoDup_scenario_priorities :
  NoDup (priority <$> [destinationA; destinationB]).
Proof.
  apply NoDup_cons. split; [|apply NoDup_singleton].
  intros Hin. apply list_elem_of_singleton in Hin. revert Hin. qc_differ.
Qed.

(** With a budget and the distinct priorities 5 and 2, the optimized route is
    a sub-sequence of [A; B]. *)
Lemma optimizeRouteRL_budget_order_is_priority_witness :
  given (Some $100) = Some $100 ∧
  NoDup (priority <$> [destinationA; destinationB]) ∧
  optimizedRoute (optimizeRouteRL (H:=sampleHost) "Home" "Home"
                    [destinationA; destinationB] (Some $100) scrambledSource).1
    `sublist_of`
  (Array_sort byPriority [destinationA; destinationB] scrambledSource).1.
Proof.
  assert (given (Some $100) = Some $100) as Hg by reflexivity.
  split; [exact Hg|]. split; [exact NoDup_scenario_priorities|].
  destruct (optimizeRouteRL_budget_order_is_priority (H:=sampleHost) "Home" "Home"
              [destinationA; destinationB] (Some $100) $100 scrambledSource Hg
              NoDup_scenario_priorities) as [Hsub _].
  exact Hsub.
Defined.


